(** * Radash async helpers: a shallow embedding and its properties

    The development follows the asynchronous helpers of the library
    ([tryit], [map], [defer], [parallel], [all], [retry]) together with the
    array helpers they import ([range], [list], [sort], [fork]).

    JavaScript values are a small inductive type with the language's notion
    of truthiness; a call that may throw or reject is a state transformer
    returning a {e completion}; the order in which suspended workers of
    [parallel] resume is an explicit schedule. *)

From Stdlib Require Import List ZArith String Bool Arith Lia.
From Stdlib Require Import Permutation Sorted.
Import ListNotations.

Set Warnings "-register-all".
Local Open Scope string_scope.
Local Open Scope list_scope.
Local Open Scope Z_scope.

(** ** JavaScript values *)

Module JS.

Inductive value : Type :=
| VUndefined
| VNull
| VBool (b : bool)
| VNumber (n : Z)
| VNaN
| VString (s : string)
| VObject (props : list (string * value))
| VArray (elems : list value)
| VAggregateError (errors : list value).

(** ToBoolean: [undefined], [null], [false], [0], [NaN] and the empty string
    are falsy, every object is truthy. *)
Definition truthy (v : value) : bool :=
  match v with
  | VUndefined | VNull | VNaN => false
  | VBool b => b
  | VNumber n => negb (n =? 0)
  | VString s => negb (String.eqb s "")
  | VObject _ | VArray _ | VAggregateError _ => true
  end.

Fixpoint lookup (key : string) (props : list (string * value)) : option value :=
  match props with
  | [] => None
  | (k, v) :: rest => if String.eqb k key then Some v else lookup key rest
  end.

(** [v.key] on a value that is neither [null] nor [undefined]; a missing
    property reads as [undefined]. *)
Definition get (v : value) (key : string) : value :=
  match v with
  | VObject props =>
      match lookup key props with Some x => x | None => VUndefined end
  | VAggregateError errors =>
      if String.eqb key "errors" then VArray errors else VUndefined
  | _ => VUndefined
  end.

(** [{...acc, [key]: v}]: an existing key keeps its place, a new one goes
    last. *)
Fixpoint set_prop (props : list (string * value)) (key : string) (v : value)
  : list (string * value) :=
  match props with
  | [] => [(key, v)]
  | (k, x) :: rest =>
      if String.eqb k key then (k, v) :: rest else (k, x) :: set_prop rest key v
  end.

(** How a call ends: it returns (or its promise fulfils), or it throws (or
    its promise rejects) with an arbitrary value. *)
Inductive completion (A : Type) : Type :=
| Normal (a : A)
| Throw (e : value).

Arguments Normal {A} a.
Arguments Throw {A} e.

(** Code with effects on a world of type [W].  A call of an asynchronous
    function is one such step: its effect is taken to happen when the call
    is made, and the completion is what its promise settles with. *)
Definition M (W A : Type) : Type := W -> completion A * W.

Definition ret {W A} (a : A) : M W A := fun w => (Normal a, w).

Definition throw {W A} (e : value) : M W A := fun w => (Throw e, w).

Definition bind {W A B} (m : M W A) (k : A -> M W B) : M W B :=
  fun w =>
    match m w with
    | (Normal a, w') => k a w'
    | (Throw e, w') => (Throw e, w')
    end.

End JS.

Import JS.

Notation "x <- m ;; k" := (bind m (fun x => k))
  (at level 61, m at next level, right associativity).

(** ** Array helpers *)

Module Arr.

(** The generator loop of [range] with the default [step] of 1:
    [for (i = start; i <= final; i += 1)
       { yield i; if (i + 1 > final) break }]. *)
Fixpoint range_loop (fuel : nat) (i final : Z) : list Z :=
  match fuel with
  | O => []
  | S fuel' =>
      if i <=? final
      then i :: (if i + 1 >? final then [] else range_loop fuel' (i + 1) final)
      else []
  end.

(** [range(startOrLength, end)]: [start = end ? startOrLength : 0] and
    [final = end ?? startOrLength]. *)
Definition range (startOrLength : Z) (end_ : option Z) : list Z :=
  let start :=
    match end_ with
    | Some e => if e =? 0 then 0 else startOrLength
    | None => 0
    end in
  let final := match end_ with Some e => e | None => startOrLength end in
  range_loop (Z.to_nat (final - start + 1)) start final.

Definition list (startOrLength : Z) (end_ : option Z) : list Z :=
  range startOrLength end_.

Section Sort.
Context {A : Type}.
Variable getter : A -> Z.

Definition asc (a b : A) : Z := getter a - getter b.
Definition dsc (a b : A) : Z := getter b - getter a.

(** [Array.prototype.sort] is stable; insertion from the right keeps the
    earlier of two elements that compare equal in front. *)
Fixpoint insert (cmp : A -> A -> Z) (x : A) (l : List.list A) : List.list A :=
  match l with
  | [] => [x]
  | y :: l' => if cmp x y <=? 0 then x :: y :: l' else y :: insert cmp x l'
  end.

Definition sort_with (cmp : A -> A -> Z) (l : List.list A) : List.list A :=
  fold_right (insert cmp) [] l.

Definition sort (array : List.list A) (desc : bool) : List.list A :=
  sort_with (if desc then dsc else asc) array.

End Sort.

(** [fork]: one pass, appending to the first list when the condition holds
    and to the second otherwise. *)
Definition fork {A} (l : List.list A) (condition : A -> bool)
  : List.list A * List.list A :=
  fold_left
    (fun acc item =>
       let '(a, b) := acc in
       if condition item then (a ++ [item], b) else (a, b ++ [item]))
    l ([], []).

(** [Array.prototype.slice(start, end)]: a negative bound counts from the
    end, and both are clamped to the array. *)
Definition slice {A} (l : List.list A) (start end_ : Z) : List.list A :=
  let len := Z.of_nat (List.length l) in
  let k := if start <? 0 then Z.max (len + start) 0 else Z.min start len in
  let final := if end_ <? 0 then Z.max (len + end_) 0 else Z.min end_ len in
  firstn (Z.to_nat (final - k)) (skipn (Z.to_nat k) l).

(** [flat]: [acc.push(...list)] for each list in turn. *)
Definition flat {A} (lists : List.list (List.list A)) : List.list A :=
  fold_left (fun acc l => acc ++ l) lists [].

(** [cluster(list, size)]: [Math.ceil(list.length / size)] slices of [size]
    items.  With a negative [size] the count is [-0] while the list is
    shorter than [-size]; [None] stands for the RangeError of
    [new Array(clusterCount)] when the count is negative, infinite or
    NaN. *)
Definition cluster {A} (l : List.list A) (size : Z)
  : option (List.list (List.list A)) :=
  let len := Z.of_nat (List.length l) in
  if 0 <? size
  then
    let clusterCount := (len + size - 1) / size in
    Some
      (List.map
         (fun i => slice l (Z.of_nat i * size) (Z.of_nat i * size + size))
         (seq 0 (Z.to_nat clusterCount)))
  else if (size <? 0) && (len <? - size) then Some []
  else None.

(** [shift(arr, n)], with JavaScript's [%], whose sign is that of [n]. *)
Definition shift {A} (arr : List.list A) (n : Z) : List.list A :=
  let len := Z.of_nat (List.length arr) in
  if len =? 0 then arr
  else
    let shiftNumber := Z.rem n len in
    if shiftNumber =? 0 then arr
    else slice arr (- shiftNumber) len ++ slice arr 0 (- shiftNumber).

(** [boil]: [null] (here [None]) for an empty array, else
    [array.reduce(compareFunc)], seeded with the first item. *)
Definition boil {A} (array : List.list A) (compareFunc : A -> A -> A)
  : option A :=
  match array with
  | [] => None
  | x :: rest => Some (fold_left compareFunc rest x)
  end.

Definition max {A} (array : List.list A) (getter : A -> Z) : option A :=
  boil array (fun a b => if getter a >? getter b then a else b).

Definition min {A} (array : List.list A) (getter : A -> Z) : option A :=
  boil array (fun a b => if getter a <? getter b then a else b).

End Arr.

(** ** The asynchronous helpers *)

Module Async.

(** [tryit(func)(...args)] never throws: it yields the pair [[err, value]],
    with [undefined] in the unused position, whether [func] throws, returns
    a promise that rejects, or succeeds. *)
Definition tryit {W A} (func : A -> M W value) (args : A)
  : W -> (value * value) * W :=
  fun w =>
    match func args w with
    | (Normal v, w') => ((VUndefined, v), w')
    | (Throw err, w') => ((err, VUndefined), w')
    end.

Section Helpers.

(** The world the caller's functions act on, and the type of input items. *)
Variable W : Type.
Variable T : Type.

(** *** map *)

(** [for (const value of array)] with [result.push(newValue)]; the first
    call that fails ends the loop and fails [map]. *)

Fixpoint map_loop (asyncMapFunc : T -> nat -> M W value)
  (array : List.list T) (index : nat) (result : List.list value) : M W value :=
  match array with
  | [] => ret (VArray result)
  | v :: rest =>
      newValue <- asyncMapFunc v index ;;
      map_loop asyncMapFunc rest (S index) (result ++ [newValue])
  end.

Definition map (array : List.list T) (asyncMapFunc : T -> nat -> M W value)
  : M W value :=
  map_loop asyncMapFunc array 0%nat [].

(** *** defer *)

(** An entry of the [callbacks] array.  A callback acts on the world; it
    does not itself register further callbacks. *)
Record DeferredCallback : Type := {
  fn : value -> M W value;
  rethrow : bool
}.

Record RegisterOptions : Type := { opt_rethrow : option bool }.

(** [register(fn, options)] pushes [{ fn, rethrow: options?.rethrow ?? false }]
    on the scope's [callbacks] array. *)
Definition register (fn : value -> M W value) (options : option RegisterOptions)
  (callbacks : List.list DeferredCallback) : List.list DeferredCallback :=
  callbacks ++
  [{| fn := fn;
      rethrow := match options with
                 | Some {| opt_rethrow := Some b |} => b
                 | _ => false
                 end |}].

(** The body acts on the world and, through [register], on [callbacks]. *)
Definition Body : Type :=
  ((value -> M W value) -> option RegisterOptions ->
   List.list DeferredCallback -> List.list DeferredCallback) ->
  M (List.list DeferredCallback * W) value.

(** The [for ... of callbacks] loop.  The first component is the value thrown
    out of the loop, if any; the last one lists the callbacks invoked, by
    position, with the way each ended. *)
Fixpoint run_callbacks (callbacks : List.list DeferredCallback) (pos : nat)
  (err : value) (w : W)
  : option value * W * List.list (nat * completion value) :=
  match callbacks with
  | [] => (None, w, [])
  | cb :: rest =>
      let c := fst (fn cb err w) in
      let '((rethrown, _), w1) := tryit (fn cb) err w in
      if truthy rethrown && rethrow cb
      then (Some rethrown, w1, [(pos, c)])
      else
        let '(thrown, w2, invoked) := run_callbacks rest (S pos) err w1 in
        (thrown, w2, (pos, c) :: invoked)
  end.

Definition defer (func : Body) (w : W)
  : completion value * W * List.list (nat * completion value) :=
  let '((err, response), (callbacks, w1)) := tryit func register ([], w) in
  match run_callbacks callbacks 0%nat err w1 with
  | (Some rethrown, w2, invoked) => (Throw rethrown, w2, invoked)
  | (None, w2, invoked) =>
      if truthy err then (Throw err, w2, invoked)
      else (Normal response, w2, invoked)
  end.

(** *** AggregateError and parallel *)

(** [new AggregateError(errors)]; [name], [message] and [stack] are computed
    from [errors] by the constructor and are not kept apart. *)
Definition AggregateError (errors : List.list value) : value :=
  VAggregateError errors.

Record WorkItem : Type := { work_index : nat; item : T }.

Record WorkItemResult : Type := {
  index : nat;
  result : value;
  error : value
}.

(** [array.map((item, index) => ({ index, item }))]. *)
Fixpoint tag (array : List.list T) (i : nat) : List.list WorkItem :=
  match array with
  | [] => []
  | x :: rest => {| work_index := i; item := x |} :: tag rest (S i)
  end.

(** [work.pop()] takes the last element. *)
Definition pop {A} (l : List.list A) : option A * List.list A :=
  match rev l with
  | [] => (None, [])
  | x :: r => (Some x, rev r)
  end.

(** A queue is one run of [processor]: suspended at its [await] with the
    popped item and the pair [tryit] will deliver once the call's promise
    settles, or resolved. *)
Inductive queue : Type :=
| Awaiting (next : WorkItem) (settled : value * value)
    (results : List.list WorkItemResult)
| Resolved (results : List.list WorkItemResult).

(** What the queues share: the [work] array and the world; [calls] lists the
    invocations of [func] in the order they happen, by item index. *)
Record pool : Type := {
  work : List.list WorkItem;
  world : W;
  calls : List.list (nat * completion value)
}.

Section Parallel.

Variable func : T -> M W value.

(** From the top of the [while (true)] loop to the next [await] or to
    [res(results)]. *)
Definition processor (results : List.list WorkItemResult) (st : pool)
  : queue * pool :=
  match pop (work st) with
  | (None, _) => (Resolved results, st)
  | (Some next, work') =>
      let '(settled, w') := tryit func (item next) (world st) in
      (Awaiting next settled results,
       {| work := work';
          world := w';
          calls := calls st ++
                   [(work_index next, fst (func (item next) (world st)))] |})
  end.

(** [list(1, limit).map(() => new Promise(processor))]: each executor runs
    at once up to its first [await]. *)
Fixpoint spawn (ids : List.list Z) (st : pool) : List.list queue * pool :=
  match ids with
  | [] => ([], st)
  | _ :: rest =>
      let '(q, st1) := processor [] st in
      let '(qs, st2) := spawn rest st1 in
      (q :: qs, st2)
  end.

Definition awaiting (q : queue) : bool :=
  match q with Awaiting _ _ _ => true | Resolved _ => false end.

(** The [k]-th suspended queue resumes: it pushes its result and loops. *)
Fixpoint resume (k : nat) (queues : List.list queue) (st : pool)
  : List.list queue * pool :=
  match queues with
  | [] => ([], st)
  | Resolved results :: qs =>
      let '(qs', st') := resume k qs st in (Resolved results :: qs', st')
  | Awaiting next (err, res) results :: qs =>
      match k with
      | O =>
          let '(q', st') :=
            processor
              (results ++
               [{| error := err; result := res; index := work_index next |}])
              st in
          (q' :: qs, st')
      | S k' =>
          let '(qs', st') := resume k' qs st in
          (Awaiting next (err, res) results :: qs', st')
      end
  end.

(** The event loop: while some queue is suspended, the schedule picks the
    one whose promise settles next ([sched t] counts among the suspended
    queues, modulo their number, at step [t]). *)
Fixpoint run (fuel : nat) (sched : nat -> nat) (t : nat)
  (queues : List.list queue) (st : pool) : List.list queue * pool :=
  match fuel with
  | O => (queues, st)
  | S fuel' =>
      let m := List.length (filter awaiting queues) in
      match m with
      | O => (queues, st)
      | S _ =>
          let '(queues', st') := resume (sched t mod m)%nat queues st in
          run fuel' sched (S t) queues' st'
      end
  end.

(** [Promise.all(queues)] resolves once every queue has. *)
Fixpoint collect (queues : List.list queue)
  : option (List.list (List.list WorkItemResult)) :=
  match queues with
  | [] => Some []
  | Awaiting _ _ _ :: _ => None
  | Resolved results :: qs =>
      match collect qs with
      | Some rs => Some (results :: rs)
      | None => None
      end
  end.

(** [parallel(limit, array, func)] under a schedule; [None] would mean that
    the promise never settles. *)
Definition parallel (limit : Z) (array : List.list T) (sched : nat -> nat)
  (w : W)
  : option (completion value * W * List.list (nat * completion value)) :=
  let st0 := {| work := tag array 0; world := w; calls := [] |} in
  let '(queues, st1) := spawn (Arr.list 1 (Some limit)) st0 in
  let '(queues', st2) := run (List.length array) sched 0 queues st1 in
  match collect queues' with
  | None => None
  | Some itemResults =>
      let '(errors, results) :=
        Arr.fork
          (Arr.sort (fun r => Z.of_nat (index r)) (List.concat itemResults)
             false)
          (fun x => truthy (error x)) in
      Some
        (if (0 <? List.length errors)%nat
         then Throw (AggregateError (List.map error errors))
         else Normal (VArray (List.map result results)),
         world st2, calls st2)
  end.

End Parallel.

(** *** all *)

(** A promise handed to [all] is given by the way it settles; promises that
    stay pending for ever are not represented. *)
Definition promise : Type := completion value.

(** The argument of [all]: an array or a record of promises, the record in
    the order [Object.entries] lists its keys. *)
Inductive promises : Type :=
| PromiseArray (ps : List.list promise)
| PromiseRecord (ps : List.list (string * promise)).

Record Settled : Type := {
  s_result : value;
  s_exc : value;
  s_key : option string
}.

Definition isArray (p : promises) : bool :=
  match p with PromiseArray _ => true | PromiseRecord _ => false end.

Definition entries (p : promises) : List.list (option string * promise) :=
  match p with
  | PromiseArray ps => List.map (fun x => (None, x)) ps
  | PromiseRecord ps => List.map (fun kp => (Some (fst kp), snd kp)) ps
  end.

(** [value.then(result => ...).catch(exc => ...)]. *)
Definition settle (entry : option string * promise) : Settled :=
  match snd entry with
  | Normal r => {| s_result := r; s_exc := VNull; s_key := fst entry |}
  | Throw exc => {| s_result := VNull; s_exc := exc; s_key := fst entry |}
  end.

Definition key_of (r : Settled) : string :=
  match s_key r with Some k => k | None => "null" end.

Definition all (p : promises) : completion value :=
  let results := List.map settle (entries p) in
  let exceptions := filter (fun r => truthy (s_exc r)) results in
  if (0 <? List.length exceptions)%nat
  then Throw (AggregateError (List.map s_exc exceptions))
  else if isArray p
  then Normal (VArray (List.map s_result results))
  else Normal
         (VObject
            (fold_left (fun acc r => set_prop acc (key_of r) (s_result r))
               results [])).

(** *** retry *)

Record RetryOptions : Type := {
  times : option Z;
  delay : option Z;
  backoff : option (Z -> Z)
}.

(** What a run of [retry] does, in order: it calls the operation (attempt
    [i], ending as [c]) and it sleeps. *)
Inductive event : Type :=
| Attempt (i : Z) (c : completion value)
| Sleep (milliseconds : Z).

Definition exited (err : value) : value := VObject [("_exited", err)].

(** The [exit] function passed to the operation: [throw { _exited: err }]. *)
Definition exit (err : value) : M W value := throw (exited err).

Definition sleep (milliseconds : Z) : List.list event := [Sleep milliseconds].

Section Retry.

Variable times_ : Z.
Variable delay_ : option Z.
Variable backoff_ : option (Z -> Z).
Variable func : (value -> M W value) -> M W value.

(** [if (delay) await sleep(delay)] followed by
    [if (backoff) await sleep(backoff(i))]. *)
Definition pause (i : Z) : List.list event :=
  (match delay_ with
   | Some d => if d =? 0 then [] else sleep d
   | None => []
   end) ++
  (match backoff_ with
   | Some b => sleep (b i)
   | None => []
   end).

(** The body of [for (const i of range(1, times))], over the values the
    generator still has to yield. *)
Fixpoint retry_loop (todo : List.list Z) (w : W)
  : completion value * W * List.list event :=
  match todo with
  | [] => (Normal VUndefined, w, [])
  | i :: rest =>
      let attempt := Attempt i (fst (func exit w)) in
      let '((err, res), w1) := tryit func exit w in
      if negb (truthy err) then (Normal res, w1, [attempt])
      else if truthy (get err "_exited")
      then (Throw (get err "_exited"), w1, [attempt])
      else if i =? times_ then (Throw err, w1, [attempt])
      else
        let '(c, w2, tr) := retry_loop rest w1 in
        (c, w2, attempt :: pause i ++ tr)
  end.

End Retry.

(** [options?.times ?? 3], [options?.delay], [options?.backoff ?? null]. *)
Definition times_of (options : option RetryOptions) : Z :=
  match options with
  | Some {| times := Some n |} => n
  | _ => 3
  end.

Definition delay_of (options : option RetryOptions) : option Z :=
  match options with Some o => delay o | None => None end.

Definition backoff_of (options : option RetryOptions) : option (Z -> Z) :=
  match options with Some o => backoff o | None => None end.

Definition retry (options : option RetryOptions)
  (func : (value -> M W value) -> M W value) (w : W)
  : completion value * W * List.list event :=
  retry_loop (times_of options) (delay_of options) (backoff_of options) func
    (Arr.range 1 (Some (times_of options))) w.

(** *** reduce *)

(** [new Error(message)], by its message. *)
Definition new_Error (message : string) : value :=
  VObject [("message", VString message)].

Definition is_undefined (v : value) : bool :=
  match v with VUndefined => true | _ => false end.

(** [for (const [i, item] of iter.entries())
       value = await asyncReducer(value, item, i)]. *)
Fixpoint reduce_loop (asyncReducer : value -> value -> nat -> M W value)
  (iter : List.list value) (i : nat) (v : value) : M W value :=
  match iter with
  | [] => ret v
  | x :: rest =>
      v' <- asyncReducer v x i ;;
      reduce_loop asyncReducer rest (S i) v'
  end.

(** [reduce(array, asyncReducer, initValue)]; an omitted [initValue] is
    [undefined].  Without it the first element is the seed and the loop
    runs over [array.slice(1)]. *)
Definition reduce (array : List.list value)
  (asyncReducer : value -> value -> nat -> M W value) (initValue : value)
  : M W value :=
  let initProvided := negb (is_undefined initValue) in
  if negb initProvided && (List.length array <? 1)%nat
  then throw (new_Error "Cannot reduce empty array with no init value")
  else
    let iter := if initProvided then array else tl array in
    let v := if initProvided then initValue else hd VUndefined array in
    reduce_loop asyncReducer iter 0%nat v.

(** *** guard *)

(** [guard(func, shouldGuard)]: a failure of [func] becomes [undefined]
    unless [shouldGuard] is given and answers [false] for it. *)
Definition guard (func : M W value) (shouldGuard : option (value -> bool))
  : M W value :=
  fun w =>
    match func w with
    | (Normal v, w') => (Normal v, w')
    | (Throw err, w') =>
        match shouldGuard with
        | Some p =>
            if negb (p err) then (Throw err, w') else (Normal VUndefined, w')
        | None => (Normal VUndefined, w')
        end
    end.

End Helpers.

Arguments reduce_loop {W} asyncReducer iter i v.
Arguments reduce {W} array asyncReducer initValue.
Arguments guard {W} func shouldGuard.
Arguments map {W T} array asyncMapFunc.
Arguments map_loop {W T} asyncMapFunc array index result.
Arguments fn {W} d.
Arguments rethrow {W} d.
Arguments register {W} fn options callbacks.
Arguments run_callbacks {W} callbacks pos err w.
Arguments defer {W} func w.
Arguments work_index {T} w.
Arguments item {T} w.
Arguments tag {T} array i.
Arguments Awaiting {T} next settled results.
Arguments Resolved {T} results.
Arguments work {W T} p.
Arguments world {W T} p.
Arguments calls {W T} p.
Arguments processor {W T} func results st.
Arguments spawn {W T} func ids st.
Arguments awaiting {T} q.
Arguments resume {W T} func k queues st.
Arguments run {W T} func fuel sched t queues st.
Arguments collect {T} queues.
Arguments parallel {W T} func limit array sched w.
Arguments exit {W} err.
Arguments pause delay_ backoff_ i : clear implicits.
Arguments retry_loop {W} times_ delay_ backoff_ func todo w.
Arguments retry {W} options func w.

(** What [retry] files under neither success ([!err]) nor exit
    ([err._exited]): a thrown value that is truthy and carries no truthy
    [_exited] property. *)
Definition ordinary_failure (err : value) : bool :=
  truthy err && negb (truthy (get err "_exited")).

(** The attempts of a trace, in order. *)
Fixpoint attempts (tr : List.list event) : List.list (Z * completion value) :=
  match tr with
  | [] => []
  | Attempt i c :: rest => (i, c) :: attempts rest
  | Sleep _ :: rest => attempts rest
  end.

End Async.

Import Async.

(** ** Vocabulary of the statements *)

Definition is_sleep (e : event) : Prop :=
  match e with Sleep _ => True | Attempt _ _ => False end.

(** The truthy values among those thrown by a list of calls, in the order of
    the list. *)
Fixpoint truthy_failures (outcomes : list (completion value)) : list value :=
  match outcomes with
  | [] => []
  | Normal _ :: rest => truthy_failures rest
  | Throw e :: rest =>
      if truthy e then e :: truthy_failures rest else truthy_failures rest
  end.

(** The value a call contributes to a result: what it returned, or the
    placeholder [d] when it threw. *)
Definition value_or (d : value) (c : completion value) : value :=
  match c with Normal v => v | Throw _ => d end.

(** The container [all] answers with: an array for an array, an object with
    the same keys for a record. *)
Definition same_shape (p : promises) : value :=
  match p with
  | PromiseArray ps => VArray (List.map (value_or VNull) ps)
  | PromiseRecord ps =>
      VObject (List.map (fun kp => (fst kp, value_or VNull (snd kp))) ps)
  end.

Definition outcomes_of (p : promises) : list (completion value) :=
  match p with
  | PromiseArray ps => ps
  | PromiseRecord ps => List.map snd ps
  end.

(** An object has each key once. *)
Definition keys_distinct (p : promises) : Prop :=
  match p with
  | PromiseArray _ => True
  | PromiseRecord ps => NoDup (List.map fst ps)
  end.

(** The invocations of [func] on a list of work items, in the order of the
    list: each with its item's index and the way it ends. *)
Fixpoint call_each {W T} (func : T -> M W value) (items : list (WorkItem T))
  (w : W) : list (nat * completion value) * W :=
  match items with
  | [] => ([], w)
  | x :: rest =>
      let '(c, w1) := func (item x) w in
      let '(cs, w2) := call_each func rest w1 in
      ((work_index x, c) :: cs, w2)
  end.

(** The result [processor] records for a call. *)
Definition record_of (call : nat * completion value) : WorkItemResult :=
  {| index := fst call;
     result := value_or VUndefined (snd call);
     error := match snd call with Normal _ => VUndefined | Throw e => e end |}.

(** The results a queue holds or is about to push. *)
Definition queue_records {T} (q : queue T) : list WorkItemResult :=
  match q with
  | Awaiting next settled results =>
      results ++
      [{| index := work_index next;
          result := snd settled;
          error := fst settled |}]
  | Resolved results => results
  end.

Definition records_of {T} (queues : list (queue T)) : list WorkItemResult :=
  flat_map queue_records queues.

(** What [parallel] answers, given how the call for each item ended, in the
    order of the input. *)
Definition parallel_answer (outcomes : list (completion value))
  : completion value :=
  match truthy_failures outcomes with
  | [] => Normal (VArray (List.map (value_or VUndefined) outcomes))
  | errs => Throw (AggregateError errs)
  end.

(** The pool after some items have been popped: [work] is what is left of
    the tagged input, the calls made are those for the popped items, last
    item first, and [recs] are their results. *)
Definition pool_inv {W T} (func : T -> M W value) (work0 : list (WorkItem T))
  (w0 : W) (recs : list WorkItemResult) (st : pool W T) : Prop :=
  work st = firstn (List.length (work st)) work0 /\
  (calls st, world st) =
  call_each func (rev (skipn (List.length (work st)) work0)) w0 /\
  Permutation recs (List.map record_of (calls st)).

(** Orders on the key a list is sorted by. *)
Definition le_key {A} (key : A -> Z) (a b : A) : Prop := key a <= key b.
Definition lt_key {A} (key : A -> Z) (a b : A) : Prop := key a < key b.

(** The number of queues suspended at their [await]. *)
Definition pending {T} (queues : list (queue T)) : nat :=
  List.length (filter awaiting queues).

(** A queue resolves only once the pool is empty. *)
Definition drained {W T} (queues : list (queue T)) (st : pool W T) : Prop :=
  forall q, In q queues -> awaiting q = false -> work st = [].

(** * Properties *)

(** ** [range] as used by [retry] and [parallel] *)

Lemma range_loop_enough (final : Z) :
  forall f1 f2 a,
    final - a + 1 <= Z.of_nat f1 -> final - a + 1 <= Z.of_nat f2 ->
    Arr.range_loop f1 a final = Arr.range_loop f2 a final.
Proof.
  induction f1 as [|f1 IH]; intros [|f2] a H1 H2; simpl; trivial.
  - destruct (Z.leb_spec a final); [lia | reflexivity].
  - destruct (Z.leb_spec a final); [lia | reflexivity].
  - destruct (Z.leb_spec a final); trivial.
    rewrite Z.gtb_ltb. destruct (Z.ltb_spec final (a + 1)); trivial.
    f_equal. apply IH; lia.
Qed.

Lemma range_loop_suffix (final : Z) :
  forall fuel a pre i rest,
    final - a + 1 <= Z.of_nat fuel ->
    Arr.range_loop fuel a final = pre ++ i :: rest ->
    a <= i <= final /\
    rest = Arr.range_loop (Z.to_nat (final - i)) (i + 1) final.
Proof.
  induction fuel as [|fuel IH]; intros a pre i rest Hf H; simpl in H.
  - destruct pre; discriminate.
  - destruct (Z.leb_spec a final) as [Hle|Hgt]; [|destruct pre; discriminate].
    rewrite Z.gtb_ltb in H.
    destruct pre as [|x pre]; simpl in H; injection H as Hx Hrest; subst.
    + split; [lia|].
      destruct (Z.ltb_spec final (i + 1)).
      * replace (Z.to_nat (final - i)) with O by lia. reflexivity.
      * apply range_loop_enough; lia.
    + destruct (Z.ltb_spec final (x + 1)); [destruct pre; discriminate|].
      apply IH in Hrest; [|lia]. split; [lia | apply Hrest].
Qed.

Lemma range_loop_seq :
  forall fuel (a : nat),
    Arr.range_loop fuel (Z.of_nat a) (Z.of_nat (a + fuel) - 1) =
    List.map Z.of_nat (seq a fuel).
Proof.
  induction fuel as [|fuel IH]; intros a; simpl; trivial.
  destruct (Z.leb_spec (Z.of_nat a) (Z.of_nat (a + S fuel) - 1)); [|lia].
  f_equal. rewrite Z.gtb_ltb.
  destruct (Z.ltb_spec (Z.of_nat (a + S fuel) - 1) (Z.of_nat a + 1)).
  - destruct fuel; [reflexivity | lia].
  - specialize (IH (S a)).
    replace (Z.of_nat (S a)) with (Z.of_nat a + 1) in IH by lia.
    replace (S a + fuel)%nat with (a + S fuel)%nat in IH by lia.
    exact IH.
Qed.

Lemma range_from_one (n : Z) :
  1 <= n -> Arr.range 1 (Some n) = List.map Z.of_nat (seq 1 (Z.to_nat n)).
Proof.
  intros Hn. unfold Arr.range.
  destruct (Z.eqb_spec n 0); [lia|].
  rewrite <- range_loop_seq.
  replace (Z.of_nat (1 + Z.to_nat n) - 1) with n by lia.
  apply range_loop_enough; lia.
Qed.

(** ** retry *)

Section RetryFacts.

Context {W : Type}.
Variable times_ : Z.
Variable delay_ : option Z.
Variable backoff_ : option (Z -> Z).
Variable func : (value -> M W value) -> M W value.

Lemma pause_sleeps (i : Z) : Forall is_sleep (pause delay_ backoff_ i).
Proof.
  unfold pause, sleep. apply Forall_app. split.
  - destruct delay_ as [d|]; [destruct (d =? 0)|]; repeat constructor.
  - destruct backoff_; repeat constructor.
Qed.

Lemma sleeps_before_attempt :
  forall sl tr pre i o post,
    Forall is_sleep sl ->
    sl ++ tr = pre ++ Attempt i o :: post ->
    exists pre', pre = sl ++ pre' /\ tr = pre' ++ Attempt i o :: post.
Proof.
  induction sl as [|e sl IH]; intros tr pre i o post Hs H; simpl in *.
  - exists pre. auto.
  - inversion Hs as [|? ? He Hs']; subst.
    destruct pre as [|x pre]; simpl in H; injection H as Hx Hrest; subst.
    + destruct He.
    + destruct (IH _ _ _ _ _ Hs' Hrest) as (pre' & -> & ->).
      exists pre'. auto.
Qed.

Lemma attempts_sleeps :
  forall sl tr, Forall is_sleep sl -> attempts (sl ++ tr) = attempts tr.
Proof.
  induction 1 as [|e sl He _ IH]; simpl; trivial.
  destruct e; [destruct He | exact IH].
Qed.

(** One turn of the loop, by the way the attempt ends. *)
Lemma retry_loop_turn (i : Z) (rest : list Z) (w : W) :
  retry_loop times_ delay_ backoff_ func (i :: rest) w =
  match func exit w with
  | (Normal v, w1) => (Normal v, w1, [Attempt i (Normal v)])
  | (Throw err, w1) =>
      if negb (truthy err) then (Normal VUndefined, w1, [Attempt i (Throw err)])
      else if truthy (get err "_exited")
      then (Throw (get err "_exited"), w1, [Attempt i (Throw err)])
      else if i =? times_ then (Throw err, w1, [Attempt i (Throw err)])
      else
        let '(c, w2, tr) := retry_loop times_ delay_ backoff_ func rest w1 in
        (c, w2, Attempt i (Throw err) :: pause delay_ backoff_ i ++ tr)
  end.
Proof.
  simpl. unfold tryit. destruct (func exit w) as [[v|err] w1]; reflexivity.
Qed.

(** Every attempt of a trace heads a run of the loop that ends as the whole
    run does. *)
Lemma retry_loop_attempt :
  forall todo w c w' tr pre i o post,
    retry_loop times_ delay_ backoff_ func todo w = (c, w', tr) ->
    tr = pre ++ Attempt i o :: post ->
    exists tpre rest w0,
      todo = tpre ++ i :: rest /\
      o = fst (func exit w0) /\
      retry_loop times_ delay_ backoff_ func (i :: rest) w0 =
      (c, w', Attempt i o :: post).
Proof.
  induction todo as [|a todo IH]; intros w c w' tr pre i o post Hrun Htr.
  - simpl in Hrun. injection Hrun as _ _ <-. destruct pre; discriminate.
  - pose proof Hrun as Hturn. rewrite retry_loop_turn in Hturn.
    assert (Hstop : forall c1 w1 o1,
               o1 = fst (func exit w) ->
               (c1, w1, [Attempt a o1]) = (c, w', tr) ->
               exists tpre rest w0,
                 a :: todo = tpre ++ i :: rest /\
                 o = fst (func exit w0) /\
                 retry_loop times_ delay_ backoff_ func (i :: rest) w0 =
                 (c, w', Attempt i o :: post)).
    { intros c1 w1 o1 Ho1 Heq. injection Heq as <- <- <-.
      destruct pre as [|x pre]; simpl in Htr.
      - injection Htr as <- <- <-. exists [], todo, w.
        repeat split; trivial.
      - injection Htr as _ Htr. destruct pre; discriminate. }
    destruct (func exit w) as [[v|err] w1] eqn:Hf.
    + eapply Hstop; [|exact Hturn]. reflexivity.
    + destruct (negb (truthy err));
        [eapply Hstop; [|exact Hturn]; reflexivity|].
      destruct (truthy (get err "_exited"));
        [eapply Hstop; [|exact Hturn]; reflexivity|].
      destruct (a =? times_); [eapply Hstop; [|exact Hturn]; reflexivity|].
      destruct (retry_loop times_ delay_ backoff_ func todo w1)
        as [[c2 w2] tr2] eqn:Hrest.
      injection Hturn as <- <- <-.
      destruct pre as [|x pre]; simpl in Htr.
      * injection Htr as <- <- <-. exists [], todo, w.
        rewrite Hf. repeat split; trivial.
      * injection Htr as _ Htr.
        destruct (sleeps_before_attempt _ _ _ _ _ _ (pause_sleeps a) Htr)
          as (pre' & _ & Htr2).
        destruct (IH _ _ _ _ _ _ _ _ Hrest Htr2)
          as (tpre & rest & w0 & -> & Ho & Hloop).
        exists (a :: tpre), rest, w0. repeat split; trivial.
Qed.

End RetryFacts.

Section RetryClaims.

Context {W : Type}.
Variable options : option RetryOptions.
Variable func : (value -> M W value) -> M W value.
Variable w : W.

Lemma exit_throws (err : value) (w0 : W) :
  exit err w0 = (Throw (exited err), w0).
Proof. reflexivity. Qed.

(** An operation that does some work, calls [exit(err)] and lets the throw
    escape ends its attempt as [Throw (exited err)], whatever would follow
    the call. *)
Lemma calls_exit_outcome (pre k : M W value) (err x : value) (w0 w1 : W) :
  pre w0 = (Normal x, w1) ->
  (_ <- pre ;; _ <- exit err ;; k) w0 = (Throw (exited err), w1).
Proof. intros H. unfold bind. rewrite H. reflexivity. Qed.

Lemma retry_attempt_turn :
  forall pre i o post,
    snd (retry options func w) = pre ++ Attempt i o :: post ->
    exists tpre rest w0,
      Arr.range 1 (Some (times_of options)) = tpre ++ i :: rest /\
      o = fst (func exit w0) /\
      retry_loop (times_of options) (delay_of options) (backoff_of options)
        func (i :: rest) w0 =
      (fst (retry options func w), Attempt i o :: post).
Proof.
  intros pre i o post H. unfold retry in *.
  destruct (retry_loop (times_of options) (delay_of options)
              (backoff_of options) func
              (Arr.range 1 (Some (times_of options))) w)
    as [[c w'] tr] eqn:Hrun.
  simpl in H. eapply retry_loop_attempt; eauto.
Qed.

Lemma retry_loop_head times_ delay_ backoff_ (j : Z) (rest : list Z) (w0 : W) :
  exists o tr,
    snd (retry_loop times_ delay_ backoff_ func (j :: rest) w0) =
    Attempt j o :: tr.
Proof.
  rewrite retry_loop_turn.
  destruct (func exit w0) as [[v|err] w1]; [simpl; eauto|].
  destruct (negb (truthy err)); [simpl; eauto|].
  destruct (truthy (get err "_exited")); [simpl; eauto|].
  destruct (j =? times_); [simpl; eauto|].
  destruct (retry_loop times_ delay_ backoff_ func rest w1) as [[c w2] tr].
  simpl. eauto.
Qed.


End RetryClaims.

(** C10.  In every run of [retry], an attempt in which the operation throws
    (or rejects with) a falsy value is the last event of the run, and the
    run returns [undefined]: the attempt is taken for a success, nothing is
    retried or raised, and the thrown value is dropped. *)
Theorem retry_falsy_failure_returns_undefined
  {W : Type} (options : option RetryOptions)
  (func : (value -> M W value) -> M W value) (w : W)
  (pre : list event) (i : Z) (e : value) (post : list event) :
  snd (retry options func w) = pre ++ Attempt i (Throw e) :: post ->
  truthy e = false ->
  post = [] /\ fst (fst (retry options func w)) = Normal VUndefined.
Proof.
  intros Htr Hfalsy.
  destruct (retry_attempt_turn options func w _ _ _ _ Htr)
    as (tpre & rest & w0 & _ & Ho & Hloop).
  rewrite retry_loop_turn in Hloop.
  destruct (func exit w0) as [[v|err] w1]; simpl in Ho; [discriminate|].
  injection Ho as <-. rewrite Hfalsy in Hloop. simpl in Hloop.
  destruct (retry options func w) as [[c w'] tr]. simpl in *.
  injection Hloop as <- _ <-. auto.
Qed.

Lemma retry_falsy_failure_returns_undefined_witness :
  @nil event = [] /\
  fst (fst (retry
              (Some {| times := Some 5; delay := Some 10; backoff := None |})
              (fun _ => throw VNull) tt)) = Normal VUndefined.
Proof.
  apply (retry_falsy_failure_returns_undefined
           (Some {| times := Some 5; delay := Some 10; backoff := None |})
           (fun _ => throw VNull) tt [] 1 VNull []);
    reflexivity.
Defined.

(** C4, as amended.  In every run of [retry], an attempt in which the
    operation calls [exit(err)] with a truthy [err] (and lets the throw
    escape) is the last event of the run, and the run raises [err] itself,
    whatever the remaining budget. *)
Theorem retry_exit_raises_truthy_error
  {W : Type} (options : option RetryOptions)
  (func : (value -> M W value) -> M W value) (w : W)
  (pre : list event) (i : Z) (err : value) (post : list event) :
  snd (retry options func w) = pre ++ Attempt i (Throw (exited err)) :: post ->
  truthy err = true ->
  post = [] /\ fst (fst (retry options func w)) = Throw err.
Proof.
  intros Htr Htruthy.
  destruct (retry_attempt_turn options func w _ _ _ _ Htr)
    as (tpre & rest & w0 & _ & Ho & Hloop).
  rewrite retry_loop_turn in Hloop.
  destruct (func exit w0) as [[v|e] w1]; simpl in Ho; [discriminate|].
  injection Ho as <-.
  change (truthy (exited err)) with true in Hloop.
  change (get (exited err) "_exited") with err in Hloop.
  rewrite Htruthy in Hloop. simpl in Hloop.
  destruct (retry options func w) as [[c w'] tr]. simpl in *.
  injection Hloop as <- _ <-. auto.
Qed.

Lemma retry_exit_raises_truthy_error_witness :
  @nil event = [] /\
  fst (fst (retry (Some {| times := Some 5; delay := None; backoff := None |})
              (fun exit => _ <- exit (VString "stop") ;; ret VNull) tt)) =
  Throw (VString "stop").
Proof.
  apply (retry_exit_raises_truthy_error
           (Some {| times := Some 5; delay := None; backoff := None |})
           (fun exit => _ <- exit (VString "stop") ;; ret VNull) tt
           [] 1 (VString "stop") []);
    reflexivity.
Defined.

(** C4, as stated, fails for a falsy [err]: with [times = 5] an operation
    that calls [exit(undefined)] is attempted five times, and what is
    raised in the end is the wrapper [{ _exited: undefined }], not
    [undefined]. *)
Lemma retry_exit_falsy_error_not_raised :
  let run :=
    retry (Some {| times := Some 5; delay := None; backoff := None |})
      (fun exit => exit VUndefined) tt in
  fst (fst run) = Throw (exited VUndefined) /\
  fst (fst run) <> Throw VUndefined /\
  List.map fst (attempts (snd run)) = [1; 2; 3; 4; 5].
Proof.
  repeat split; try reflexivity. discriminate.
Qed.





(** ** defer *)

Section DeferFacts.

Context {W : Type}.

(** One turn of the loop over the callbacks, by the way the callback ends. *)
Lemma run_callbacks_turn (cb : DeferredCallback W)
  (rest : list (DeferredCallback W)) (pos : nat) (err : value) (w : W) :
  run_callbacks (cb :: rest) pos err w =
  let c := fst (fn cb err w) in
  let w1 := snd (fn cb err w) in
  let rethrown := match c with Normal _ => VUndefined | Throw e => e end in
  if truthy rethrown && rethrow cb then (Some rethrown, w1, [(pos, c)])
  else
    let '(thrown, w2, invoked) := run_callbacks rest (S pos) err w1 in
    (thrown, w2, (pos, c) :: invoked).
Proof.
  simpl. unfold tryit. destruct (fn cb err w) as [[v|e] w1]; reflexivity.
Qed.

(** The callbacks invoked are an initial segment of the registered ones, in
    order; the segment is proper only when its last callback was registered
    with [rethrow: true] and threw a truthy value, which the loop throws. *)
Lemma run_callbacks_segment :
  forall (callbacks : list (DeferredCallback W)) pos err w,
    exists m,
      (m <= List.length callbacks)%nat /\
      List.map fst (snd (run_callbacks callbacks pos err w)) = seq pos m /\
      ((m = List.length callbacks /\
        fst (fst (run_callbacks callbacks pos err w)) = None) \/
       (exists cb e,
           (1 <= m)%nat /\
           nth_error callbacks (m - 1) = Some cb /\
           rethrow cb = true /\
           In ((pos + m - 1)%nat, Throw e)
             (snd (run_callbacks callbacks pos err w)) /\
           truthy e = true /\
           fst (fst (run_callbacks callbacks pos err w)) = Some e)).
Proof.
  induction callbacks as [|cb rest IH]; intros pos err w.
  - exists O. simpl. auto.
  - rewrite run_callbacks_turn.
    destruct (fn cb err w) as [c w1]. cbn [fst snd].
    destruct (truthy match c with Normal _ => VUndefined | Throw e => e end
              && rethrow cb) eqn:Hstop.
    + apply andb_true_iff in Hstop. destruct Hstop as [Ht Hr].
      destruct c as [v|e]; [discriminate|].
      exists 1%nat. simpl. repeat split; try lia. right.
      exists cb, e. replace (pos + 1 - 1)%nat with pos by lia.
      repeat split; auto.
    + destruct (IH (S pos) err w1) as (m & Hm & Hseq & Hend).
      destruct (run_callbacks rest (S pos) err w1) as [[thrown w2] invoked].
      cbn [fst snd] in *.
      exists (S m). simpl. repeat split; [lia | f_equal; exact Hseq|].
      destruct Hend as [[-> ->]|(cb' & e & H1 & Hnth & Hr & Hin & Ht & ->)].
      * left. auto.
      * right. exists cb', e.
        assert (Hnth' : nth_error (cb :: rest) (S m - 1) = Some cb').
        { destruct m as [|m]; [lia|]. simpl in *.
          rewrite Nat.sub_0_r in *. exact Hnth. }
        assert (Hin' : In ((pos + S m - 1)%nat, Throw e) ((pos, c) :: invoked)).
        { right. replace (pos + S m - 1)%nat with (S pos + m - 1)%nat by lia.
          exact Hin. }
        repeat split; auto.
Qed.

Lemma run_callbacks_positions
  (callbacks : list (DeferredCallback W)) pos err w j c :
  In (j, c) (snd (run_callbacks callbacks pos err w)) -> (pos <= j)%nat.
Proof.
  intros Hin. destruct (run_callbacks_segment callbacks pos err w)
    as (m & _ & Hseq & _).
  apply (in_map fst) in Hin. rewrite Hseq in Hin. apply in_seq in Hin.
  simpl in Hin. lia.
Qed.

(** A callback registered with [rethrow: true] that is invoked and throws a
    truthy value ends the loop with that value: it is the last one
    invoked. *)
Lemma run_callbacks_rethrow :
  forall (callbacks : list (DeferredCallback W)) pos err w j e cb,
    In (j, Throw e) (snd (run_callbacks callbacks pos err w)) ->
    nth_error callbacks (j - pos) = Some cb ->
    rethrow cb = true ->
    truthy e = true ->
    fst (fst (run_callbacks callbacks pos err w)) = Some e /\
    List.length (snd (run_callbacks callbacks pos err w)) = S (j - pos).
Proof.
  induction callbacks as [|cb0 rest IH]; intros pos err w j e cb Hin Hnth Hr Ht.
  - destruct Hin.
  - rewrite run_callbacks_turn in *.
    pose proof (run_callbacks_positions rest (S pos) err (snd (fn cb0 err w)))
      as Hpos.
    destruct (fn cb0 err w) as [c w1]. cbn [fst snd] in *.
    destruct (truthy match c with Normal _ => VUndefined | Throw e0 => e0 end
              && rethrow cb0) eqn:Hstop.
    + simpl in *. destruct Hin as [Hin|[]]. injection Hin as -> ->.
      rewrite Nat.sub_diag. auto.
    + specialize (IH (S pos) err w1 j e cb).
      destruct (run_callbacks rest (S pos) err w1) as [[thrown w2] invoked].
      cbn [fst snd] in *. destruct Hin as [Hin|Hin].
      * injection Hin as <- ->. rewrite Nat.sub_diag in Hnth.
        injection Hnth as <-. rewrite Ht, Hr in Hstop. discriminate.
      * apply Hpos in Hin as Hle.
        replace (j - pos)%nat with (S (j - S pos)) in * by lia.
        destruct IH as [Hthrown Hlen]; auto.
        split; [exact Hthrown|]. simpl. rewrite Hlen. reflexivity.
Qed.

End DeferFacts.

(** [defer] in terms of the way the body ends. *)
Lemma defer_unfold {W : Type} (func : Body W) (w : W) :
  defer func w =
  let c := fst (func register ([], w)) in
  let callbacks := fst (snd (func register ([], w))) in
  let w1 := snd (snd (func register ([], w))) in
  let err := match c with Normal _ => VUndefined | Throw e => e end in
  match run_callbacks callbacks 0 err w1 with
  | (Some rethrown, w2, invoked) => (Throw rethrown, w2, invoked)
  | (None, w2, invoked) =>
      if truthy err then (Throw err, w2, invoked)
      else (Normal match c with Normal v => v | Throw _ => VUndefined end,
            w2, invoked)
  end.
Proof.
  unfold defer, tryit.
  destruct (func register ([], w)) as [[v|e] [callbacks w1]]; reflexivity.
Qed.

(** C2, as amended.  [defer] invokes the callbacks the body registered in
    registration order, each at most once and without gaps, after the body
    has settled.  A callback is left out only when an earlier one that was
    registered with [rethrow: true] threw a truthy value: that callback is
    then the last one invoked and [defer] raises what it threw.  The
    failure of any other callback stops nothing. *)
Theorem defer_runs_callbacks_until_rethrow
  {W : Type} (func : Body W) (w : W) :
  let callbacks := fst (snd (func register ([], w))) in
  let invoked := snd (defer func w) in
  exists m,
    (m <= List.length callbacks)%nat /\
    List.map fst invoked = seq 0 m /\
    ((m < List.length callbacks)%nat ->
     exists cb e,
       nth_error callbacks (m - 1) = Some cb /\
       rethrow cb = true /\
       In ((m - 1)%nat, Throw e) invoked /\
       truthy e = true /\
       fst (fst (defer func w)) = Throw e) /\
    (forall j cb e,
        nth_error callbacks j = Some cb ->
        rethrow cb = true ->
        In (j, Throw e) invoked ->
        truthy e = true ->
        S j = m /\ fst (fst (defer func w)) = Throw e).
Proof.
  rewrite defer_unfold. cbv zeta.
  set (callbacks := fst (snd (func register ([], w)))).
  set (w1 := snd (snd (func register ([], w)))).
  set (err := match fst (func register ([], w)) with
              | Normal _ => VUndefined
              | Throw e => e
              end).
  destruct (run_callbacks_segment callbacks 0 err w1) as (m & Hm & Hseq & Hend).
  pose proof (run_callbacks_rethrow callbacks 0 err w1) as Hlast.
  destruct (run_callbacks callbacks 0 err w1) as [[thrown w2] invoked].
  cbn [fst snd] in *.
  assert (Hlen : List.length invoked = m)
    by (rewrite <- (length_map fst), Hseq; apply length_seq).
  assert (Hinv : snd (match thrown with
                      | Some rethrown => (Throw rethrown, w2, invoked)
                      | None =>
                          if truthy err then (Throw err, w2, invoked)
                          else
                            (Normal
                               match fst (func register ([], w)) with
                               | Normal v => v
                               | Throw _ => VUndefined
                               end, w2, invoked)
                      end) = invoked)
    by (destruct thrown; [|destruct (truthy err)]; reflexivity).
  rewrite Hinv. exists m. split; [exact Hm|]. split; [exact Hseq|]. split.
  - intros Hlt.
    destruct Hend as [[-> _]|(cb & e & _ & Hnth & Hr & Hin & Ht & ->)];
      [lia|].
    exists cb, e. simpl in Hin. auto.
  - intros j cb e Hnth Hr Hin Ht.
    rewrite <- (Nat.sub_0_r j) in Hnth.
    destruct (Hlast j e cb Hin Hnth Hr Ht) as [-> Hl].
    rewrite Nat.sub_0_r in Hl. split; [congruence | reflexivity].
Qed.

(** C2, as stated, fails: the body registers [A] with [rethrow: true] and
    then [B]; [A] throws, and [B] is never invoked. *)
Lemma defer_skips_callbacks_after_rethrow :
  let A := fun _ : value => @throw unit value (VString "A failed") in
  let B := fun _ : value => @ret unit value VNull in
  let body : Body unit :=
    fun register st =>
      (Normal (VString "done"),
       (register B None
          (register A (Some {| opt_rethrow := Some true |}) (fst st)),
        snd st)) in
  List.map (@rethrow unit) (fst (snd (body register ([], tt)))) =
  [true; false] /\
  snd (defer body tt) = [(0%nat, Throw (VString "A failed"))] /\
  fst (fst (defer body tt)) = Throw (VString "A failed").
Proof. repeat split. Qed.

(** C8, as amended.  When the body fails and a callback registered with
    [rethrow: true] is invoked and throws a truthy value, [defer] raises
    that value, not the body's. *)
Theorem defer_rethrow_overrides_body
  {W : Type} (func : Body W) (w : W) (body_error : value)
  (j : nat) (cb : DeferredCallback W) (e : value) :
  fst (func register ([], w)) = Throw body_error ->
  nth_error (fst (snd (func register ([], w)))) j = Some cb ->
  rethrow cb = true ->
  In (j, Throw e) (snd (defer func w)) ->
  truthy e = true ->
  fst (fst (defer func w)) = Throw e.
Proof.
  intros Hbody Hnth Hr Hin Ht. rewrite defer_unfold in *. cbv zeta in *.
  set (callbacks := fst (snd (func register ([], w)))) in *.
  set (w1 := snd (snd (func register ([], w)))) in *.
  rewrite Hbody in *.
  assert (Hthrown :
            fst (fst (run_callbacks callbacks 0 body_error w1)) = Some e).
  { eapply proj1, run_callbacks_rethrow with (j := j) (cb := cb); auto.
    - destruct (run_callbacks callbacks 0 body_error w1) as [[[r|] w2] invoked];
        [exact Hin|].
      destruct (truthy body_error); exact Hin.
    - rewrite Nat.sub_0_r. exact Hnth. }
  destruct (run_callbacks callbacks 0 body_error w1) as [[thrown w2] invoked].
  simpl in Hthrown. subst thrown. reflexivity.
Qed.

Lemma defer_rethrow_overrides_body_witness :
  fst (fst (defer
              (fun register st =>
                 (Throw (VString "body failed"),
                  (register (fun _ => throw (VString "cleanup failed"))
                     (Some {| opt_rethrow := Some true |}) (fst st),
                   snd st)))
              tt)) =
  Throw (VString "cleanup failed").
Proof.
  apply (defer_rethrow_overrides_body
           (fun register st =>
              (Throw (VString "body failed"),
               (register (fun _ => throw (VString "cleanup failed"))
                  (Some {| opt_rethrow := Some true |}) (fst st),
                snd st)))
           tt (VString "body failed") 0
           {| fn := fun _ => throw (VString "cleanup failed");
              rethrow := true |}
           (VString "cleanup failed"));
    try reflexivity.
  left. reflexivity.
Defined.

(** C8, as stated, fails for a falsy error: the body fails, the callback
    registered with [rethrow: true] is invoked and throws [undefined], and
    [defer] raises the body's error. *)
Lemma defer_falsy_rethrow_keeps_body_error :
  let body : Body unit :=
    fun register st =>
      (Throw (VString "body failed"),
       (register (fun _ => throw VUndefined)
          (Some {| opt_rethrow := Some true |}) (fst st),
        snd st)) in
  List.map (@rethrow unit) (fst (snd (body register ([], tt)))) = [true] /\
  snd (defer body tt) = [(0%nat, Throw VUndefined)] /\
  fst (fst (defer body tt)) = Throw (VString "body failed") /\
  fst (fst (defer body tt)) <> Throw VUndefined.
Proof. repeat split. discriminate. Qed.

(** ** all *)

Lemma settle_exceptions (es : list (option string * promise)) :
  List.map s_exc (filter (fun r => truthy (s_exc r)) (List.map settle es)) =
  truthy_failures (List.map snd es).
Proof.
  induction es as [|[k [v|e]] es IH]; simpl; trivial.
  unfold settle at 1. simpl. destruct (truthy e); simpl; congruence.
Qed.

Lemma entries_outcomes (p : promises) :
  List.map snd (entries p) = outcomes_of p.
Proof.
  destruct p as [ps|ps]; simpl; rewrite map_map; simpl; trivial.
  apply map_id.
Qed.

Lemma set_prop_fresh (props : list (string * value)) (k : string) (v : value) :
  ~ In k (List.map fst props) -> set_prop props k v = props ++ [(k, v)].
Proof.
  induction props as [|[k0 x] props IH]; simpl; intros Hk; trivial.
  destruct (String.eqb_spec k0 k) as [->|_]; [exfalso; auto|].
  f_equal. apply IH. auto.
Qed.

Lemma record_rebuilt :
  forall (ps : list (string * promise)) (acc : list (string * value)),
    NoDup (List.map fst acc ++ List.map fst ps) ->
    fold_left (fun acc r => set_prop acc (key_of r) (s_result r))
      (List.map settle (List.map (fun kp => (Some (fst kp), snd kp)) ps)) acc =
    acc ++ List.map (fun kp => (fst kp, value_or VNull (snd kp))) ps.
Proof.
  induction ps as [|[k c] ps IH]; intros acc Hnd; simpl.
  - symmetry. apply app_nil_r.
  - apply NoDup_remove in Hnd. destruct Hnd as [Hnd Hk].
    assert (Hset : set_prop acc (key_of (settle (Some k, c)))
                     (s_result (settle (Some k, c))) =
                   acc ++ [(k, value_or VNull c)]).
    { destruct c; apply set_prop_fresh; intros Hin; apply Hk;
        apply in_or_app; auto. }
    rewrite Hset, IH.
    + rewrite <- app_assoc. reflexivity.
    + rewrite map_app, <- app_assoc. simpl.
      apply NoDup_Add with (a := k) (l := List.map fst acc ++ List.map fst ps);
        [|split; trivial].
      apply Add_app.
Qed.

(** C9, as amended.  If one or more of the operations fail with a truthy
    value, [all] raises an AggregateError holding those values in the order
    of the input.  Otherwise it returns a container of the shape of the
    input (an array in the order of the input, or an object with the same
    keys) holding what each operation resolved to, with [null] for an
    operation that failed with a falsy value. *)
Theorem all_aggregates_truthy_failures (p : promises) :
  keys_distinct p ->
  (truthy_failures (outcomes_of p) <> [] ->
   all p = Throw (AggregateError (truthy_failures (outcomes_of p)))) /\
  (truthy_failures (outcomes_of p) = [] -> all p = Normal (same_shape p)).
Proof.
  intros Hkeys. unfold all.
  pose proof (settle_exceptions (entries p)) as Hexc.
  rewrite entries_outcomes in Hexc.
  destruct (filter (fun r => truthy (s_exc r)) (List.map settle (entries p)))
    as [|r exceptions] eqn:Hfilter.
  - simpl in Hexc. rewrite <- Hexc. split; [congruence|]. intros _. simpl.
    destruct p as [ps|ps]; simpl.
    + rewrite !map_map. f_equal. f_equal. apply map_ext.
      intros [v|e]; reflexivity.
    + rewrite record_rebuilt; [reflexivity | exact Hkeys].
  - simpl Nat.ltb. cbv iota. rewrite Hexc. split; [trivial|].
    intros Hnil. rewrite <- Hexc, Hnil in *. discriminate.
Qed.

Lemma all_aggregates_truthy_failures_witness :
  (truthy_failures
     [Normal (VNumber 1); Throw (VString "b failed")] <> [] ->
   all (PromiseRecord [("a", Normal (VNumber 1));
                       ("b", Throw (VString "b failed"))]) =
   Throw (AggregateError [VString "b failed"])) /\
  (truthy_failures
     [Normal (VNumber 1); Throw (VString "b failed")] = [] ->
   all (PromiseRecord [("a", Normal (VNumber 1));
                       ("b", Throw (VString "b failed"))]) =
   Normal (VObject [("a", VNumber 1); ("b", VNull)])).
Proof.
  apply (all_aggregates_truthy_failures
           (PromiseRecord [("a", Normal (VNumber 1));
                           ("b", Throw (VString "b failed"))])).
  simpl. repeat constructor; simpl; intuition discriminate.
Defined.

(** C9, as stated, fails for a falsy error: the second operation rejects
    with [undefined], and [all] returns an array instead of raising. *)
Lemma all_falsy_failure_not_raised :
  all (PromiseArray [Normal (VNumber 1); Throw VUndefined]) =
  Normal (VArray [VNumber 1; VNull]).
Proof. reflexivity. Qed.

(** ** sort and fork as [parallel] uses them *)

Section SortFacts.

Context {A : Type}.
Variable key : A -> Z.

Lemma insert_perm (x : A) (l : list A) :
  Permutation (Arr.insert (Arr.asc key) x l) (x :: l).
Proof.
  induction l as [|y l IH]; simpl; trivial.
  destruct (Arr.asc key x y <=? 0); trivial.
  rewrite IH. apply perm_swap.
Qed.

Lemma sort_perm (l : list A) : Permutation (Arr.sort key l false) l.
Proof.
  unfold Arr.sort, Arr.sort_with.
  induction l as [|x l IH]; simpl; trivial.
  rewrite insert_perm. auto.
Qed.

Lemma insert_sorted (x : A) (l : list A) :
  StronglySorted (le_key key) l ->
  StronglySorted (le_key key) (Arr.insert (Arr.asc key) x l).
Proof.
  induction 1 as [|y l Hs IH Hall]; simpl.
  - repeat constructor.
  - unfold Arr.asc at 1. destruct (Z.leb_spec (key x - key y) 0) as [Hle|Hgt].
    + constructor; [constructor; trivial|].
      constructor; [unfold le_key; lia|].
      eapply Forall_impl; [|exact Hall].
      unfold le_key. intros; lia.
    + constructor; trivial.
      eapply Permutation_Forall; [symmetry; apply insert_perm|].
      constructor; [unfold le_key; lia | exact Hall].
Qed.

Lemma sort_sorted (l : list A) :
  StronglySorted (le_key key) (Arr.sort key l false).
Proof.
  unfold Arr.sort, Arr.sort_with.
  induction l as [|x l IH]; simpl; [constructor|].
  apply insert_sorted. exact IH.
Qed.

Lemma sorted_perm_unique :
  forall l2 l1 : list A,
    Permutation l1 l2 ->
    StronglySorted (le_key key) l1 -> StronglySorted (lt_key key) l2 -> l1 = l2.
Proof.
  induction l2 as [|y l2 IH]; intros l1 Hp H1 H2.
  - apply Permutation_sym, Permutation_nil in Hp. exact Hp.
  - destruct l1 as [|x l1];
      [apply Permutation_nil in Hp; discriminate|].
    inversion H1 as [|? ? H1' Hx]; subst.
    inversion H2 as [|? ? H2' Hy]; subst.
    assert (x = y) as ->.
    { assert (Hin1 : In x (y :: l2))
        by (eapply Permutation_in; [exact Hp | left; trivial]).
      assert (Hin2 : In y (x :: l1))
        by (eapply Permutation_in;
            [symmetry; exact Hp | left; trivial]).
      destruct Hin1 as [->|Hin1]; trivial.
      destruct Hin2 as [->|Hin2]; trivial.
      rewrite Forall_forall in Hx, Hy.
      specialize (Hx _ Hin2). specialize (Hy _ Hin1).
      unfold le_key, lt_key in *. lia. }
    f_equal. apply IH; trivial.
    eapply Permutation_cons_inv; exact Hp.
Qed.

(** Sorting a list whose keys are distinct yields the one arrangement of it
    in which the keys increase. *)
Lemma sort_unique (l l' : list A) :
  Permutation l l' -> StronglySorted (lt_key key) l' ->
  Arr.sort key l false = l'.
Proof.
  intros Hp Hs. apply sorted_perm_unique; trivial.
  - rewrite sort_perm. exact Hp.
  - apply sort_sorted.
Qed.

End SortFacts.

Lemma fork_filter {A} (condition : A -> bool) (l : list A) :
  Arr.fork l condition =
  (filter condition l, filter (fun x => negb (condition x)) l).
Proof.
  unfold Arr.fork.
  assert (H : forall l a b,
             fold_left
               (fun acc item =>
                  let '(a, b) := acc in
                  if condition item then (a ++ [item], b)
                  else (a, b ++ [item]))
               l (a, b) =
             (a ++ filter condition l,
              b ++ filter (fun x => negb (condition x)) l)).
  { clear l. induction l as [|x l IH]; intros a b; simpl.
    - rewrite !app_nil_r. reflexivity.
    - destruct (condition x); simpl; rewrite IH, <- app_assoc; reflexivity. }
  apply (H l [] []).
Qed.

(** ** parallel *)

Lemma pop_spec {A} (l : list A) :
  (l = [] /\ pop l = (None, [])) \/
  (exists l' x, l = l' ++ [x] /\ pop l = (Some x, l')).
Proof.
  unfold pop. destruct (rev l) as [|x r] eqn:H;
    apply (f_equal (@rev A)) in H; rewrite rev_involutive in H; subst.
  - left. auto.
  - right. simpl. exists (rev r), x. auto.
Qed.

Lemma firstn_split_last {A} (l l' : list A) (x : A) :
  firstn (S (List.length l')) l = l' ++ [x] ->
  firstn (List.length l') l = l' /\
  skipn (List.length l') l = x :: skipn (S (List.length l')) l.
Proof.
  intros H. pose proof (firstn_skipn (S (List.length l')) l) as Hl.
  remember (skipn (S (List.length l')) l) as tl eqn:Htl. clear Htl.
  rewrite H, <- app_assoc in Hl. clear H. subst l.
  rewrite firstn_app, skipn_app, Nat.sub_diag, firstn_all, skipn_all.
  simpl. rewrite app_nil_r. auto.
Qed.

Lemma call_each_snoc {W T} (func : T -> M W value)
  (items : list (WorkItem T)) (x : WorkItem T) (w : W) :
  call_each func (items ++ [x]) w =
  (fst (call_each func items w) ++
   [(work_index x, fst (func (item x) (snd (call_each func items w))))],
   snd (func (item x) (snd (call_each func items w)))).
Proof.
  revert w. induction items as [|y items IH]; intros w; simpl.
  - destruct (func (item x) w); reflexivity.
  - destruct (func (item y) w) as [c w1]. rewrite IH.
    destruct (call_each func items w1) as [cs w2]. reflexivity.
Qed.

Lemma call_each_indices {W T} (func : T -> M W value)
  (items : list (WorkItem T)) (w : W) :
  List.map fst (fst (call_each func items w)) = List.map work_index items.
Proof.
  revert w. induction items as [|x items IH]; intros w; simpl; trivial.
  destruct (func (item x) w) as [c w1]. specialize (IH w1).
  destruct (call_each func items w1) as [cs w2]. simpl in *. congruence.
Qed.

Lemma tag_indices {T} (array : list T) (i : nat) :
  List.map work_index (tag array i) = seq i (List.length array).
Proof.
  revert i. induction array as [|x array IH]; intros i; simpl; congruence.
Qed.

Lemma tag_length {T} (array : list T) (i : nat) :
  List.length (tag array i) = List.length array.
Proof.
  rewrite <- (length_map work_index), tag_indices. apply length_seq.
Qed.

Section ParallelFacts.

Context {W T : Type}.
Variable func : T -> M W value.
Variable work0 : list (WorkItem T).
Variable w0 : W.

(** [processor] on a pool whose last item is [x]. *)
Lemma processor_pop (results : list WorkItemResult) (st : pool W T)
  (l' : list (WorkItem T)) (x : WorkItem T) :
  work st = l' ++ [x] ->
  processor func results st =
  (Awaiting x
     (error (record_of (work_index x, fst (func (item x) (world st)))),
      result (record_of (work_index x, fst (func (item x) (world st)))))
     results,
   {| work := l';
      world := snd (func (item x) (world st));
      calls := calls st ++
               [(work_index x, fst (func (item x) (world st)))] |}).
Proof.
  intros Hl. unfold processor.
  destruct (pop_spec (work st)) as [[Hnil _]|(l2 & y & Hl2 & ->)].
  - rewrite Hnil in Hl. destruct l'; discriminate.
  - rewrite Hl in Hl2. apply app_inj_tail in Hl2. destruct Hl2 as [<- <-].
    unfold tryit. destruct (func (item x) (world st)) as [[v|e] w1];
      reflexivity.
Qed.

Lemma processor_empty (results : list WorkItemResult) (st : pool W T) :
  work st = [] -> processor func results st = (Resolved results, st).
Proof.
  intros Hnil. unfold processor. rewrite Hnil. reflexivity.
Qed.

(** One run of [processor]: it either finds the pool empty and resolves, or
    pops the last item and calls [func] on it. *)
Lemma processor_step (results : list WorkItemResult) (st : pool W T)
  (pre post : list WorkItemResult) :
  pool_inv func work0 w0 (pre ++ results ++ post) st ->
  pool_inv func work0 w0
    (pre ++ queue_records (fst (processor func results st)) ++ post)
    (snd (processor func results st)) /\
  (List.length (work (snd (processor func results st))) +
   (if awaiting (fst (processor func results st)) then 1 else 0) =
   List.length (work st))%nat /\
  (awaiting (fst (processor func results st)) = false -> work st = []) /\
  (work st = [] -> work (snd (processor func results st)) = []).
Proof.
  intros (Hwork & Hcalls & Hperm).
  destruct (pop_spec (work st)) as [[Hnil _]|(l' & x & Hl & _)].
  - rewrite processor_empty by exact Hnil. simpl.
    repeat split; auto; lia.
  - rewrite (processor_pop results st l' x Hl).
    cbn [fst snd awaiting queue_records].
    rewrite Hl, length_app in *. simpl List.length in *.
    rewrite Nat.add_1_r in *.
    symmetry in Hwork.
    apply firstn_split_last in Hwork. destruct Hwork as [Hfirst Hskip].
    split; [|split; [|split]].
    + unfold pool_inv. cbn [work world calls]. split; [|split].
      * symmetry. exact Hfirst.
      * rewrite Hskip. cbn [rev]. rewrite call_each_snoc, <- Hcalls.
        reflexivity.
      * rewrite map_app. simpl List.map.
        change {| index := work_index x;
                  result := result (record_of
                    (work_index x, fst (func (item x) (world st))));
                  error := error (record_of
                    (work_index x, fst (func (item x) (world st)))) |}
          with (record_of (work_index x, fst (func (item x) (world st)))).
        rewrite <- Hperm.
        rewrite <- !app_assoc. do 2 apply Permutation_app_head.
        apply Permutation_app_comm.
    + cbn [work]. lia.
    + discriminate.
    + intros Habs. destruct l'; discriminate.
Qed.

Lemma spawn_inv :
  forall (ids : list Z) (st : pool W T) (pre : list WorkItemResult),
    pool_inv func work0 w0 pre st ->
    pool_inv func work0 w0 (pre ++ records_of (fst (spawn func ids st)))
      (snd (spawn func ids st)) /\
    (List.length (work (snd (spawn func ids st))) +
     pending (fst (spawn func ids st)) = List.length (work st))%nat /\
    List.length (fst (spawn func ids st)) = List.length ids /\
    drained (fst (spawn func ids st)) (snd (spawn func ids st)) /\
    (work st = [] -> work (snd (spawn func ids st)) = []).
Proof.
  induction ids as [|i ids IH]; intros st pre Hinv.
  - simpl. rewrite app_nil_r.
    split; [exact Hinv|]. split; [unfold pending; simpl; lia|].
    split; [reflexivity|]. split; [intros q []|auto].
  - simpl.
    assert (Hinv0 : pool_inv func work0 w0 (pre ++ [] ++ []) st)
      by (rewrite app_nil_r; exact Hinv).
    destruct (processor_step [] st pre [] Hinv0)
      as (Hinv1 & Hlen1 & Hres1 & Hnil1).
    destruct (processor func [] st) as [q st1]. cbn [fst snd] in *.
    rewrite app_nil_r in Hinv1.
    destruct (IH st1 _ Hinv1) as (Hinv2 & Hlen2 & Hlen & Hdr & Hnil2).
    destruct (spawn func ids st1) as [qs st2]. cbn [fst snd] in *.
    split; [|split; [|split; [|split]]].
    + unfold records_of in *. simpl. rewrite app_assoc. exact Hinv2.
    + unfold pending in *. simpl. destruct (awaiting q); simpl; lia.
    + simpl. congruence.
    + intros q' [<-|Hin] Hq'; auto. apply Hdr with q'; auto.
    + auto.
Qed.

Lemma resume_inv :
  forall (queues : list (queue T)) (k : nat) (st : pool W T)
    (pre post : list WorkItemResult),
    pool_inv func work0 w0 (pre ++ records_of queues ++ post) st ->
    (k < pending queues)%nat ->
    drained queues st ->
    pool_inv func work0 w0
      (pre ++ records_of (fst (resume func k queues st)) ++ post)
      (snd (resume func k queues st)) /\
    (List.length (work (snd (resume func k queues st))) +
     pending (fst (resume func k queues st)) + 1 =
     List.length (work st) + pending queues)%nat /\
    List.length (fst (resume func k queues st)) = List.length queues /\
    drained (fst (resume func k queues st)) (snd (resume func k queues st)) /\
    (work st = [] -> work (snd (resume func k queues st)) = []).
Proof.
  induction queues as [|q queues IH]; intros k st pre post Hinv Hk Hdr.
  - unfold pending in Hk. simpl in Hk. lia.
  - assert (Hdr' : drained queues st)
      by (intros q' Hin; apply Hdr; right; exact Hin).
    destruct q as [next [err res] results|results].
    + destruct k as [|k].
      * cbn [resume].
        unfold records_of in Hinv. cbn [flat_map queue_records fst snd] in Hinv.
        rewrite <- app_assoc in Hinv.
        destruct (processor_step
                    (results ++
                     [{| index := work_index next; result := res;
                         error := err |}])
                    st pre (flat_map queue_records queues ++ post) Hinv)
          as (Hinv1 & Hlen1 & Hres1 & Hnil1).
        destruct (processor func
                    (results ++
                     [{| index := work_index next; result := res;
                         error := err |}]) st) as [q' st1].
        cbn [fst snd] in *.
        split; [|split; [|split; [|split]]].
        -- unfold records_of. cbn [flat_map]. rewrite <- app_assoc.
           exact Hinv1.
        -- unfold pending in *. simpl. destruct (awaiting q'); simpl; lia.
        -- reflexivity.
        -- intros q0 [<-|Hin] Hq0; [rewrite Hnil1; auto|].
           rewrite Hnil1; auto. apply Hdr' with q0; auto.
        -- exact Hnil1.
      * cbn [resume].
        unfold records_of in Hinv. cbn [flat_map] in Hinv.
        rewrite <- app_assoc, app_assoc in Hinv.
        destruct (IH k st _ post Hinv) as (Hinv1 & Hlen1 & Hlen & Hdr1 & Hnil1);
          [unfold pending in *; simpl in Hk; lia | exact Hdr'|].
        destruct (resume func k queues st) as [qs st1]. cbn [fst snd] in *.
        split; [|split; [|split; [|split]]].
        -- unfold records_of. cbn [flat_map].
           rewrite <- app_assoc, app_assoc. exact Hinv1.
        -- unfold pending in *. simpl. lia.
        -- simpl. congruence.
        -- intros q0 [<-|Hin] Hq0; [discriminate|]. apply Hdr1 with q0; auto.
        -- exact Hnil1.
    + cbn [resume].
      unfold records_of in Hinv. cbn [flat_map] in Hinv.
      rewrite <- app_assoc, app_assoc in Hinv.
      destruct (IH k st _ post Hinv) as (Hinv1 & Hlen1 & Hlen & Hdr1 & Hnil1);
        [unfold pending in *; simpl in Hk; lia | exact Hdr'|].
      assert (Hempty : work st = [])
        by (apply Hdr with (Resolved results); [left|]; reflexivity).
      destruct (resume func k queues st) as [qs st1]. cbn [fst snd] in *.
      split; [|split; [|split; [|split]]].
      * unfold records_of. cbn [flat_map].
        rewrite <- app_assoc, app_assoc. exact Hinv1.
      * unfold pending in *. simpl. lia.
      * simpl. congruence.
      * intros q0 _ _. auto.
      * exact Hnil1.
Qed.

Variable sched : nat -> nat.

Lemma run_inv :
  forall (fuel t : nat) (queues : list (queue T)) (st : pool W T),
    pool_inv func work0 w0 (records_of queues) st ->
    drained queues st ->
    (List.length (work st) + pending queues <= fuel)%nat ->
    pool_inv func work0 w0 (records_of (fst (run func fuel sched t queues st)))
      (snd (run func fuel sched t queues st)) /\
    pending (fst (run func fuel sched t queues st)) = O /\
    List.length (fst (run func fuel sched t queues st)) = List.length queues /\
    drained (fst (run func fuel sched t queues st))
      (snd (run func fuel sched t queues st)).
Proof.
  induction fuel as [|fuel IH]; intros t queues st Hinv Hdr Hfuel.
  - simpl. split; [exact Hinv|]. split; [lia|].
    split; [reflexivity | exact Hdr].
  - cbn [run]. fold (pending queues).
    destruct (pending queues) as [|m] eqn:Hm.
    + simpl. split; [exact Hinv|]. split; [exact Hm|].
      split; [reflexivity | exact Hdr].
    + assert (Hinv0 : pool_inv func work0 w0 ([] ++ records_of queues ++ []) st)
        by (rewrite app_nil_r; exact Hinv).
      assert (Hk : (sched t mod S m < pending queues)%nat)
        by (rewrite Hm; apply Nat.mod_upper_bound; discriminate).
      destruct (resume_inv queues (sched t mod S m) st [] [] Hinv0 Hk Hdr)
        as (Hinv1 & Hlen1 & Hlen & Hdr1 & _).
      destruct (resume func (sched t mod S m) queues st) as [queues' st'].
      cbn [fst snd] in *. rewrite app_nil_r in Hinv1. simpl in Hinv1.
      destruct (IH (S t) queues' st' Hinv1 Hdr1) as (H1 & H2 & H3 & H4);
        [lia|].
      split; [exact H1|]. split; [exact H2|].
      split; [congruence | exact H4].
Qed.

Lemma collect_resolved :
  forall queues : list (queue T),
    pending queues = O ->
    exists rs, collect queues = Some rs /\ List.concat rs = records_of queues.
Proof.
  induction queues as [|[next settled results|results] queues IH];
    unfold pending; simpl; intros Hp.
  - exists []. auto.
  - discriminate.
  - destruct (IH Hp) as (rs & -> & Hrs). exists (results :: rs).
    simpl. rewrite Hrs. auto.
Qed.

End ParallelFacts.

Lemma sorted_by_index :
  forall (l : list WorkItemResult) (a n : nat),
    List.map index l = seq a n ->
    StronglySorted
      (fun x y => Z.of_nat (index x) < Z.of_nat (index y)) l.
Proof.
  induction l as [|x l IH]; intros a n Hl; [constructor|].
  destruct n as [|n]; [discriminate|]. simpl in Hl.
  injection Hl as Hx Hl. constructor; [eapply IH; exact Hl|].
  apply Forall_forall. intros y Hy.
  apply (in_map index) in Hy. rewrite Hl in Hy. apply in_seq in Hy. lia.
Qed.

Lemma filter_none {A} (f : A -> bool) (l : list A) :
  filter f l = [] -> filter (fun x => negb (f x)) l = l.
Proof.
  induction l as [|x l IH]; simpl; trivial.
  destruct (f x); [discriminate|]. simpl. intros H. f_equal. auto.
Qed.

Lemma record_errors (cs : list (nat * completion value)) :
  List.map error
    (filter (fun x => truthy (error x)) (List.map record_of cs)) =
  truthy_failures (List.map snd cs).
Proof.
  induction cs as [|[i [v|e]] cs IH]; simpl; trivial.
  destruct (truthy e); simpl; congruence.
Qed.

(** The last lines of [parallel], on the sorted records. *)
Lemma answer_of_records (cs : list (nat * completion value)) :
  (let '(errors, results) :=
     Arr.fork (List.map record_of cs) (fun x => truthy (error x)) in
   if (0 <? List.length errors)%nat
   then Throw (AggregateError (List.map error errors))
   else Normal (VArray (List.map result results))) =
  parallel_answer (List.map snd cs).
Proof.
  rewrite fork_filter. unfold parallel_answer.
  rewrite <- record_errors.
  destruct (filter (fun x => truthy (error x)) (List.map record_of cs))
    as [|r errors] eqn:Hf; [|reflexivity].
  simpl. rewrite filter_none by exact Hf. rewrite !map_map. reflexivity.
Qed.

(** With at least one queue, a run of [parallel] settles under every
    schedule; [func] has then been called once for each item, last item
    first, and the answer is built from the ways those calls ended, put
    back in the order of the input. *)
Lemma parallel_run {W T : Type} (func : T -> M W value) (limit : Z)
  (array : list T) (sched : nat -> nat) (w : W) :
  0 <= limit ->
  parallel func limit array sched w =
  Some
    (parallel_answer
       (List.map snd (rev (fst (call_each func (rev (tag array 0)) w)))),
     snd (call_each func (rev (tag array 0)) w),
     fst (call_each func (rev (tag array 0)) w)).
Proof.
  intros Hlimit. unfold parallel.
  set (work0 := tag array 0).
  set (st0 := {| work := work0; world := w; calls := [] |}).
  assert (Hinv0 : pool_inv func work0 w [] st0).
  { unfold pool_inv. simpl. rewrite firstn_all, skipn_all. simpl.
    repeat split; auto. }
  assert (Hids : (1 <= List.length (Arr.list 1 (Some limit)))%nat).
  { unfold Arr.list, Arr.range.
    destruct (Z.eqb_spec limit 0) as [->|Hne]; [simpl; lia|].
    destruct (Z.to_nat (limit - 1 + 1)) as [|k] eqn:Hk; [lia|].
    simpl. destruct (Z.leb_spec 1 limit); [simpl; lia | lia]. }
  destruct (spawn_inv func work0 w (Arr.list 1 (Some limit)) st0 [] Hinv0)
    as (Hinv1 & Hlen1 & Hq1 & Hdr1 & _).
  destruct (spawn func (Arr.list 1 (Some limit)) st0) as [queues st1].
  cbn [fst snd] in *. simpl in Hinv1.
  destruct (run_inv func work0 w sched (List.length array) 0 queues st1
              Hinv1 Hdr1) as (Hinv2 & Hp2 & Hq2 & Hdr2).
  { subst st0 work0. cbn [work] in Hlen1. rewrite tag_length in Hlen1. lia. }
  destruct (run func (List.length array) sched 0 queues st1)
    as [queues' st2].
  cbn [fst snd] in *.
  destruct (collect_resolved queues' Hp2) as (rs & -> & Hrs).
  assert (Hempty : work st2 = []).
  { destruct queues' as [|q0 queues']; [simpl in Hq2; lia|].
    apply Hdr2 with q0; [left; reflexivity|].
    unfold pending in Hp2. simpl in Hp2.
    destruct (awaiting q0); [discriminate | reflexivity]. }
  destruct Hinv2 as (_ & Hcalls & Hperm).
  rewrite Hempty in Hcalls. simpl in Hcalls.
  rewrite <- Hcalls. cbn [fst snd].
  assert (Hsort :
            Arr.sort (fun r => Z.of_nat (index r)) (List.concat rs) false =
            List.map record_of (rev (calls st2))).
  { apply sort_unique.
    - rewrite Hrs, Hperm. apply Permutation_map, Permutation_rev.
    - apply sorted_by_index with (a := O) (n := List.length array).
      rewrite map_map. simpl.
      change (List.map (fun x => fst x) (rev (calls st2)))
        with (List.map fst (rev (calls st2))).
      rewrite map_rev.
      replace (calls st2) with (fst (call_each func (rev work0) w))
        by (rewrite <- Hcalls; reflexivity).
      rewrite call_each_indices, map_rev, rev_involutive.
      apply tag_indices. }
  rewrite Hsort.
  pose proof (answer_of_records (rev (calls st2))) as Hans.
  destruct (Arr.fork (List.map record_of (rev (calls st2)))
              (fun x => truthy (error x))) as [errors results].
  rewrite Hans. reflexivity.
Qed.

Lemma tag_items {T} (array : list T) (i : nat) :
  List.map item (tag array i) = array.
Proof.
  revert i. induction array as [|x array IH]; intros i; simpl; congruence.
Qed.

Lemma tag_nth {T} (array : list T) :
  forall (a : nat) (x : WorkItem T),
    In x (tag array a) ->
    (a <= work_index x)%nat /\
    nth_error array (work_index x - a) = Some (item x).
Proof.
  induction array as [|y array IH]; intros a x Hin; [destruct Hin|].
  destruct Hin as [<-|Hin]; simpl.
  - rewrite Nat.sub_diag. auto.
  - apply IH in Hin. destruct Hin as [Hle Hnth]. split; [lia|].
    replace (work_index x - a)%nat with (S (work_index x - S a)) by lia.
    exact Hnth.
Qed.

Lemma call_each_in {W T} (func : T -> M W value) :
  forall (items : list (WorkItem T)) (w : W) (i : nat) (c : completion value),
    In (i, c) (fst (call_each func items w)) ->
    exists x w0, In x items /\ work_index x = i /\ c = fst (func (item x) w0).
Proof.
  induction items as [|y items IH]; intros w i c Hin; [destruct Hin|].
  simpl in Hin. destruct (func (item y) w) as [c1 w1] eqn:Hf.
  specialize (IH w1 i c).
  destruct (call_each func items w1) as [cs w2]. simpl in *.
  destruct Hin as [Hin|Hin].
  - injection Hin as <- <-. exists y, w. rewrite Hf. auto.
  - destruct (IH Hin) as (x & w0 & Hx & Hi & Hc). exists x, w0. auto.
Qed.

(** Every call [parallel] makes is a call of [func] on the item at the
    recorded index, and there is one call for each index. *)
Lemma parallel_calls {W T} (func : T -> M W value) (array : list T) (w : W) :
  List.map fst (fst (call_each func (rev (tag array 0)) w)) =
  rev (seq 0 (List.length array)) /\
  forall i c,
    In (i, c) (fst (call_each func (rev (tag array 0)) w)) ->
    exists x w0, nth_error array i = Some x /\ c = fst (func x w0).
Proof.
  split.
  - rewrite call_each_indices, map_rev, tag_indices. reflexivity.
  - intros i c Hin. apply call_each_in in Hin.
    destruct Hin as (x & w0 & Hx & <- & ->).
    apply in_rev, tag_nth in Hx. destruct Hx as [_ Hnth].
    rewrite Nat.sub_0_r in Hnth. eauto.
Qed.

(** C1, as amended.  For every limit of at least 1 and under every
    schedule, [parallel] settles after one call of [func] per item.  With
    the calls taken in the order of the input: if some of them threw a
    truthy value, [parallel] raises an AggregateError whose [errors] are
    exactly those values, in that order; otherwise it returns what the
    calls returned, in that order ([undefined] for a call that threw a
    falsy value). *)
Theorem parallel_aggregates_truthy_failures
  {W T : Type} (func : T -> M W value) (limit : Z) (array : list T)
  (sched : nat -> nat) (w : W) :
  1 <= limit ->
  exists res w' calls,
    parallel func limit array sched w = Some (res, w', calls) /\
    List.map fst (rev calls) = seq 0 (List.length array) /\
    (forall i c,
        In (i, c) calls ->
        exists x w0, nth_error array i = Some x /\ c = fst (func x w0)) /\
    let outcomes := List.map snd (rev calls) in
    (truthy_failures outcomes <> [] ->
     res = Throw (AggregateError (truthy_failures outcomes))) /\
    (truthy_failures outcomes = [] ->
     res = Normal (VArray (List.map (value_or VUndefined) outcomes))).
Proof.
  intros Hlimit.
  destruct (parallel_calls func array w) as [Hidx Hcalls].
  eexists _, _, _. split; [apply parallel_run; lia|].
  split; [rewrite map_rev, Hidx; apply rev_involutive|].
  split; [exact Hcalls|].
  cbv zeta. unfold parallel_answer.
  destruct (truthy_failures
              (List.map snd (rev (fst (call_each func (rev (tag array 0)) w)))));
    split; congruence.
Qed.

Lemma parallel_aggregates_truthy_failures_witness :
  exists res w' calls,
    parallel
      (fun x : Z =>
         if Z.odd x then throw (VNumber x)
         else @ret unit value (VNumber (2 * x)))
      2 [1; 2; 3; 4; 5] (fun t => t) tt = Some (res, w', calls) /\
    List.map fst (rev calls) = seq 0 5 /\
    (forall i c,
        In (i, c) calls ->
        exists x w0,
          nth_error [1; 2; 3; 4; 5] i = Some x /\
          c = fst ((if Z.odd x then throw (VNumber x)
                    else @ret unit value (VNumber (2 * x))) w0)) /\
    let outcomes := List.map snd (rev calls) in
    (truthy_failures outcomes <> [] ->
     res = Throw (AggregateError (truthy_failures outcomes))) /\
    (truthy_failures outcomes = [] ->
     res = Normal (VArray (List.map (value_or VUndefined) outcomes))).
Proof.
  apply (parallel_aggregates_truthy_failures
           (fun x : Z =>
              if Z.odd x then throw (VNumber x)
              else @ret unit value (VNumber (2 * x)))
           2 [1; 2; 3; 4; 5] (fun t => t) tt).
  lia.
Defined.

(** C1, as stated, fails for a falsy error: the one item fails, its call
    rejecting with [undefined], and [parallel] returns [[undefined]]
    instead of raising an AggregateError with one error. *)
Lemma parallel_falsy_failure_not_raised :
  parallel (fun _ : Z => @throw unit value VUndefined) 1 [10]
    (fun _ => 0%nat) tt =
  Some (Normal (VArray [VUndefined]), tt, [(0%nat, Throw VUndefined)]).
Proof. reflexivity. Qed.



Section PureWorker.

Context {W T : Type}.
Variable func : T -> M W value.
Variable f : T -> value.

(** [func] succeeds on every item, with a value that depends on the item
    only. *)
Hypothesis func_returns : forall x w0, fst (func x w0) = Normal (f x).

Lemma call_each_pure (items : list (WorkItem T)) (w : W) :
  fst (call_each func items w) =
  List.map (fun x => (work_index x, Normal (f (item x)))) items.
Proof.
  revert w. induction items as [|x items IH]; intros w; simpl; trivial.
  pose proof (func_returns (item x) w) as Hx.
  destruct (func (item x) w) as [c w1]. simpl in Hx. subst c.
  specialize (IH w1). destruct (call_each func items w1) as [cs w2].
  simpl in *. congruence.
Qed.

Lemma map_loop_pure :
  forall (array : list T) (i : nat) (acc : list value) (w : W),
    fst (map_loop (fun x _ => func x) array i acc w) =
    Normal (VArray (acc ++ List.map f array)).
Proof.
  induction array as [|x array IH]; intros i acc w; simpl.
  - rewrite app_nil_r. reflexivity.
  - unfold bind. pose proof (func_returns x w) as Hx.
    destruct (func x w) as [c w1]. simpl in Hx. subst c.
    rewrite IH, <- app_assoc. reflexivity.
Qed.

Lemma no_failures_pure (array : list T) :
  truthy_failures (List.map (fun x => Normal (f x)) array) = [].
Proof. induction array; simpl; trivial. Qed.

End PureWorker.

(** C3, as amended.  When the worker succeeds on every item and what it
    returns depends on the item only, [parallel] with [limit = 1] returns,
    under every schedule, the list that the sequential [map] of the worker
    over the input returns. *)
Theorem parallel_one_agrees_with_map_on_pure_success
  {W T : Type} (func : T -> M W value) (f : T -> value) (array : list T)
  (sched : nat -> nat) (w : W) :
  (forall x w0, fst (func x w0) = Normal (f x)) ->
  option_map (fun r => fst (fst r)) (parallel func 1 array sched w) =
  Some (fst (Async.map array (fun x _ => func x) w)) /\
  fst (Async.map array (fun x _ => func x) w) =
  Normal (VArray (List.map f array)).
Proof.
  intros Hpure. unfold Async.map.
  rewrite (map_loop_pure func f Hpure). simpl app.
  split; [|reflexivity].
  rewrite parallel_run by lia. simpl option_map. cbn [fst].
  rewrite (call_each_pure func f Hpure).
  rewrite <- map_rev, rev_involutive, map_map. cbn [snd].
  rewrite <- (map_map item (fun x => Normal (f x))), tag_items.
  unfold parallel_answer. rewrite <- (map_map f Normal) at 1.
  rewrite (map_map f Normal), no_failures_pure, map_map. reflexivity.
Qed.

Lemma parallel_one_agrees_with_map_on_pure_success_witness :
  option_map (fun r => fst (fst r))
    (parallel (fun x : Z => @ret unit value (VNumber (2 * x))) 1
       [1; 2; 3] (fun _ => 0%nat) tt) =
  Some (fst (Async.map [1; 2; 3]
               (fun x _ => @ret unit value (VNumber (2 * x))) tt)) /\
  fst (Async.map [1; 2; 3]
         (fun x _ => @ret unit value (VNumber (2 * x))) tt) =
  Normal (VArray (List.map (fun x => VNumber (2 * x)) [1; 2; 3])).
Proof.
  apply (parallel_one_agrees_with_map_on_pure_success
           (fun x : Z => @ret unit value (VNumber (2 * x)))
           (fun x => VNumber (2 * x)) [1; 2; 3] (fun _ => 0%nat) tt).
  reflexivity.
Defined.

(** C3, as stated, fails: a worker that returns how many times it has been
    called so far is called on the last item first by [parallel], so with
    [limit = 1] the answer for [[10, 20]] is [[2, 1]], while the sequential
    [map] answers [[1, 2]]. *)
Lemma parallel_one_differs_from_map :
  let counter : Z -> M Z value :=
    fun _ n => (Normal (VNumber (n + 1)), n + 1) in
  option_map (fun r => fst (fst r))
    (parallel counter 1 [10; 20] (fun _ => 0%nat) 0) =
  Some (Normal (VArray [VNumber 2; VNumber 1])) /\
  fst (Async.map [10; 20] (fun x _ => counter x) 0) =
  Normal (VArray [VNumber 1; VNumber 2]).
Proof. split; reflexivity. Qed.

(** The two also differ when the worker fails: [parallel] raises an
    AggregateError holding the error, [map] raises the error itself. *)
Lemma parallel_one_wraps_the_failure :
  let failing : Z -> M unit value := fun _ => throw (VString "down") in
  option_map (fun r => fst (fst r))
    (parallel failing 1 [10] (fun _ => 0%nat) tt) =
  Some (Throw (AggregateError [VString "down"])) /\
  fst (Async.map [10] (fun x _ => failing x) tt) = Throw (VString "down").
Proof. split; reflexivity. Qed.

(** * Further properties *)

(** ** retry: how a run ends and what it never does *)

(** An attempt that succeeds is the last event of the run, and the run
    returns its value: nothing is retried or slept after a success. *)
Theorem retry_returns_first_success
  {W : Type} (options : option RetryOptions)
  (func : (value -> M W value) -> M W value) (w : W)
  (pre : list event) (i : Z) (v : value) (post : list event) :
  snd (retry options func w) = pre ++ Attempt i (Normal v) :: post ->
  post = [] /\ fst (fst (retry options func w)) = Normal v.
Proof.
  intros Htr.
  destruct (retry_attempt_turn options func w _ _ _ _ Htr)
    as (tpre & rest & w0 & _ & Ho & Hloop).
  rewrite retry_loop_turn in Hloop.
  destruct (func exit w0) as [[v0|err] w1]; simpl in Ho; [|discriminate].
  injection Ho as <-.
  destruct (retry options func w) as [[c w'] tr]. simpl in *.
  injection Hloop as <- _ <-. auto.
Qed.

Lemma retry_returns_first_success_witness :
  @nil event = [] /\
  fst (fst (retry None
              (fun _ n =>
                 if (n <? 2)%nat then (Throw (VString "down"), S n)
                 else (Normal (VString "up"), S n))
              O)) = Normal (VString "up").
Proof.
  apply (retry_returns_first_success None
           (fun _ n =>
              if (n <? 2)%nat then (Throw (VString "down"), S n)
              else (Normal (VString "up"), S n))
           O
           [Attempt 1 (Throw (VString "down"));
            Attempt 2 (Throw (VString "down"))]
           3 (VString "up") []).
  reflexivity.
Defined.

(** [retry] goes on to a further event only after an ordinary failure on an
    attempt other than the one numbered [times]: after a success, a falsy
    failure, an exit or the last attempt the run is over. *)
Theorem retry_continues_only_after_ordinary_failure
  {W : Type} (options : option RetryOptions)
  (func : (value -> M W value) -> M W value) (w : W)
  (pre : list event) (i : Z) (o : completion value) (post : list event) :
  snd (retry options func w) = pre ++ Attempt i o :: post ->
  post <> [] ->
  exists e,
    o = Throw e /\ ordinary_failure e = true /\ i <> times_of options.
Proof.
  intros Htr Hpost.
  destruct (retry_attempt_turn options func w _ _ _ _ Htr)
    as (tpre & rest & w0 & _ & Ho & Hloop).
  rewrite retry_loop_turn in Hloop.
  destruct (func exit w0) as [[v0|err] w1]; simpl in Ho; subst o.
  - injection Hloop as _ Hp. congruence.
  - destruct (truthy err) eqn:Ht; simpl in Hloop;
      [|injection Hloop as _ Hp; congruence].
    destruct (truthy (get err "_exited")) eqn:Hx;
      [injection Hloop as _ Hp; congruence|].
    destruct (Z.eqb_spec i (times_of options));
      [injection Hloop as _ Hp; congruence|].
    exists err. unfold ordinary_failure. rewrite Ht, Hx. auto.
Qed.

Lemma retry_continues_only_after_ordinary_failure_witness :
  exists e,
    @Throw value (VString "down") = Throw e /\
    ordinary_failure e = true /\
    1 <> times_of (@None RetryOptions).
Proof.
  apply (retry_continues_only_after_ordinary_failure None
           (fun _ => throw (VString "down")) tt
           [] 1 (Throw (VString "down"))
           [Attempt 2 (Throw (VString "down"));
            Attempt 3 (Throw (VString "down"))]).
  - reflexivity.
  - discriminate.
Defined.

(** With a negative [times] the generator yields nothing: the operation is
    never called and [retry] returns [undefined]. *)
Theorem retry_negative_times_never_calls
  {W : Type} (options : option RetryOptions)
  (func : (value -> M W value) -> M W value) (w : W) :
  times_of options < 0 ->
  retry options func w = (Normal VUndefined, w, []).
Proof.
  intros Hneg. unfold retry, Arr.range.
  destruct (Z.eqb_spec (times_of options) 0); [lia|].
  replace (Z.to_nat (times_of options - 1 + 1)) with O by lia.
  reflexivity.
Qed.

Lemma retry_negative_times_never_calls_witness :
  retry (Some {| times := Some (-1); delay := None; backoff := None |})
    (fun _ => throw (VString "down")) tt =
  (Normal VUndefined, tt, []).
Proof.
  apply (retry_negative_times_never_calls
           (Some {| times := Some (-1); delay := None; backoff := None |})
           (fun _ => throw (VString "down")) tt).
  reflexivity.
Defined.

(** With [times = 0], [range(1, 0)] yields the single value 0: the
    operation is called exactly once, and no sleep follows. *)
Theorem retry_zero_times_one_attempt
  {W : Type} (options : option RetryOptions)
  (func : (value -> M W value) -> M W value) (w : W) :
  times_of options = 0 ->
  snd (retry options func w) = [Attempt 0 (fst (func exit w))].
Proof.
  intros Hzero. unfold retry. rewrite Hzero.
  change (Arr.range 1 (Some 0)) with [0].
  rewrite retry_loop_turn.
  destruct (func exit w) as [[v|err] w1]; [reflexivity|].
  destruct (negb (truthy err)); [reflexivity|].
  destruct (truthy (get err "_exited")); reflexivity.
Qed.

Lemma retry_zero_times_one_attempt_witness :
  snd (retry (Some {| times := Some 0; delay := Some 5; backoff := None |})
         (fun _ => throw (VString "down")) tt) =
  [Attempt 0 (Throw (VString "down"))].
Proof.
  apply (retry_zero_times_one_attempt
           (Some {| times := Some 0; delay := Some 5; backoff := None |})
           (fun _ => throw (VString "down")) tt).
  reflexivity.
Defined.

Section RetryShape.

Context {W : Type}.
Variable times_ : Z.
Variable delay_ : option Z.
Variable backoff_ : option (Z -> Z).
Variable func : (value -> M W value) -> M W value.

(** The attempts made are numbered by an initial segment of the values the
    generator yields. *)
Lemma retry_loop_attempts_prefix :
  forall (todo : list Z) (w : W),
    exists rest,
      todo =
      List.map fst
        (attempts (snd (retry_loop times_ delay_ backoff_ func todo w))) ++
      rest.
Proof.
  induction todo as [|i todo IH]; intros w.
  - exists []. reflexivity.
  - rewrite retry_loop_turn.
    destruct (func exit w) as [[v|err] w1]; [exists todo; reflexivity|].
    destruct (negb (truthy err)); [exists todo; reflexivity|].
    destruct (truthy (get err "_exited")); [exists todo; reflexivity|].
    destruct (i =? times_); [exists todo; reflexivity|].
    destruct (IH w1) as (rest & Hrest).
    destruct (retry_loop times_ delay_ backoff_ func todo w1) as [[c w2] tr].
    exists rest. cbn [snd attempts] in *.
    rewrite attempts_sleeps by apply pause_sleeps.
    simpl. f_equal. exact Hrest.
Qed.

(** When the generator's last value is [times], every sleep of a run is
    followed by a further attempt. *)
Lemma retry_loop_sleep_then_attempt :
  forall (todo : list Z) (w : W) pre ms post,
    (forall init i, todo = init ++ [i] -> i = times_) ->
    snd (retry_loop times_ delay_ backoff_ func todo w) =
    pre ++ Sleep ms :: post ->
    exists i o, In (Attempt i o) post.
Proof.
  induction todo as [|i todo IH]; intros w pre ms post Hlast Htr.
  - destruct pre; discriminate.
  - rewrite retry_loop_turn in Htr.
    assert (Hone : forall o,
               [Attempt i o] = pre ++ Sleep ms :: post ->
               exists j o', In (Attempt j o') post).
    { intros o H. destruct pre as [|x pre]; [discriminate|].
      injection H as _ H. destruct pre; discriminate. }
    destruct (func exit w) as [[v|err] w1]; [eapply Hone; exact Htr|].
    destruct (negb (truthy err)); [eapply Hone; exact Htr|].
    destruct (truthy (get err "_exited")); [eapply Hone; exact Htr|].
    destruct (Z.eqb_spec i times_) as [Heq|Hne]; [eapply Hone; exact Htr|].
    destruct todo as [|j todo].
    { exfalso. apply Hne. apply (Hlast []). reflexivity. }
    assert (Hlast' : forall init k, j :: todo = init ++ [k] -> k = times_).
    { intros init k H. apply (Hlast (i :: init)). simpl. congruence. }
    specialize (IH w1).
    destruct (retry_loop_head func times_ delay_ backoff_ j todo w1)
      as (o & tr' & Hhead).
    destruct (retry_loop times_ delay_ backoff_ func (j :: todo) w1)
      as [[c w2] tr].
    cbn [snd] in *. subst tr.
    destruct pre as [|x pre]; [discriminate|].
    injection Htr as _ Htr.
    apply app_eq_app in Htr. destruct Htr as (l & [[Hp Hq]|[Hp Hq]]).
    + destruct l as [|y l]; [discriminate|].
      injection Hq as _ ->. exists j, o.
      apply in_or_app. right. left. reflexivity.
    + destruct l as [|y l]; [discriminate|].
      injection Hq as <- Hq.
      apply (IH (Attempt j o :: l) ms post Hlast').
      simpl. rewrite Hq. reflexivity.
Qed.

End RetryShape.

Lemma range_ends_at_final (s : Z) (n : Z) (init : list Z) (i : Z) :
  Arr.range s (Some n) = init ++ [i] -> i = n.
Proof.
  unfold Arr.range. intros H. apply range_loop_suffix in H; [|lia].
  destruct H as [Hi Hrest].
  destruct (Z.to_nat (n - i)) as [|k] eqn:Hk; [lia|].
  simpl in Hrest. destruct (Z.leb_spec (i + 1) n); [discriminate | lia].
Qed.

(** [retry] never sleeps before it returns or raises: every sleep of a run
    is followed by a further attempt. *)
Theorem retry_sleeps_only_between_attempts
  {W : Type} (options : option RetryOptions)
  (func : (value -> M W value) -> M W value) (w : W)
  (pre : list event) (ms : Z) (post : list event) :
  snd (retry options func w) = pre ++ Sleep ms :: post ->
  exists i o, In (Attempt i o) post.
Proof.
  unfold retry. apply retry_loop_sleep_then_attempt.
  intros init i. apply range_ends_at_final.
Qed.

Lemma retry_sleeps_only_between_attempts_witness :
  exists i o,
    In (Attempt i o)
      [Attempt 2 (Throw (VString "down")); Sleep 7;
       Attempt 3 (Throw (VString "down"))].
Proof.
  apply (retry_sleeps_only_between_attempts
           (Some {| times := None; delay := Some 7; backoff := None |})
           (fun _ => throw (VString "down")) tt
           [Attempt 1 (Throw (VString "down"))] 7).
  reflexivity.
Defined.

Lemma firstn_seq_le (k a n : nat) :
  (k <= n)%nat -> firstn k (seq a n) = seq a k.
Proof.
  intros Hk. replace n with (k + (n - k))%nat by lia.
  rewrite seq_app, firstn_app, length_seq, Nat.sub_diag, firstn_O, app_nil_r.
  rewrite <- (length_seq k a) at 1. apply firstn_all.
Qed.

(** With [times >= 1], the attempts of a run are numbered [1, 2, ..., k]
    for some [k] between 1 and [times]: the operation is called at least
    once and never more than [times] times, whatever the attempts do. *)
Theorem retry_attempts_numbered_up_to_times
  {W : Type} (options : option RetryOptions)
  (func : (value -> M W value) -> M W value) (w : W) :
  1 <= times_of options ->
  exists k,
    (1 <= k <= Z.to_nat (times_of options))%nat /\
    List.map fst (attempts (snd (retry options func w))) =
    List.map Z.of_nat (seq 1 k).
Proof.
  intros Htimes. unfold retry.
  destruct (retry_loop_attempts_prefix (times_of options) (delay_of options)
              (backoff_of options) func
              (Arr.range 1 (Some (times_of options))) w) as (rest & Hrest).
  rewrite range_from_one in * by assumption.
  remember (Z.to_nat (times_of options)) as n eqn:Hn.
  assert (Hpos : (1 <= List.length
                        (List.map fst
                           (attempts
                              (snd (retry_loop (times_of options)
                                      (delay_of options) (backoff_of options)
                                      func (List.map Z.of_nat (seq 1 n)) w)))))%nat).
  { destruct n as [|m]; [lia|].
    change (List.map Z.of_nat (seq 1 (S m)))
      with (1 :: List.map Z.of_nat (seq 2 m)).
    destruct (retry_loop_head func (times_of options) (delay_of options)
                (backoff_of options) 1 (List.map Z.of_nat (seq 2 m)) w)
      as (o & tr' & Hh).
    rewrite Hh. simpl. lia. }
  remember (List.map fst
              (attempts
                 (snd (retry_loop (times_of options) (delay_of options)
                         (backoff_of options) func
                         (List.map Z.of_nat (seq 1 n)) w)))) as A eqn:HA.
  clear HA.
  assert (Hlen : (List.length A <= n)%nat).
  { apply (f_equal (@List.length Z)) in Hrest.
    rewrite length_app, length_map, length_seq in Hrest. lia. }
  exists (List.length A). split; [lia|].
  pose proof (f_equal (firstn (List.length A)) Hrest) as Hf.
  rewrite firstn_app, Nat.sub_diag, firstn_all, firstn_O, app_nil_r in Hf.
  rewrite firstn_map, firstn_seq_le in Hf by exact Hlen.
  symmetry. exact Hf.
Qed.

Lemma retry_attempts_numbered_up_to_times_witness :
  exists k,
    (1 <= k <= 3)%nat /\
    List.map fst
      (attempts
         (snd (retry None
                 (fun _ n =>
                    if (n <? 1)%nat then (Throw (VString "down"), S n)
                    else (Normal (VString "up"), S n))
                 O))) =
    List.map Z.of_nat (seq 1 k).
Proof.
  apply (retry_attempts_numbered_up_to_times None
           (fun _ n =>
              if (n <? 1)%nat then (Throw (VString "down"), S n)
              else (Normal (VString "up"), S n))
           O).
  vm_compute. discriminate.
Defined.

(** ** defer: the body's outcome *)

(** When no callback was registered with [rethrow: true], every callback is
    invoked, whatever the callbacks do, and [defer] ends as the body did:
    it returns the body's value or raises the body's error, except that a
    falsy error of the body is dropped and [undefined] returned. *)
Theorem defer_without_rethrow_ends_as_body
  {W : Type} (func : Body W) (w : W) :
  (forall cb,
      In cb (fst (snd (func register ([], w)))) -> rethrow cb = false) ->
  List.map fst (snd (defer func w)) =
  seq 0 (List.length (fst (snd (func register ([], w))))) /\
  fst (fst (defer func w)) =
  match fst (func register ([], w)) with
  | Normal v => Normal v
  | Throw e => if truthy e then Throw e else Normal VUndefined
  end.
Proof.
  intros Hno. rewrite defer_unfold. cbv zeta.
  set (callbacks := fst (snd (func register ([], w)))) in *.
  set (w1 := snd (snd (func register ([], w)))).
  set (c := fst (func register ([], w))).
  set (err := match c with Normal _ => VUndefined | Throw e => e end).
  destruct (run_callbacks_segment callbacks 0 err w1) as (m & Hm & Hseq & Hend).
  destruct (run_callbacks callbacks 0 err w1) as [[thrown w2] invoked].
  cbn [fst snd] in *.
  destruct Hend as [[-> ->]|(cb & e & _ & Hnth & Hr & _)].
  - subst err. destruct c as [v|e]; simpl; [auto|].
    destruct (truthy e); auto.
  - apply nth_error_In, Hno in Hnth. congruence.
Qed.

Lemma defer_without_rethrow_ends_as_body_witness :
  List.map fst
    (snd (defer
            (fun register st =>
               (Throw VNull,
                (register (fun _ => throw (VString "cleanup failed")) None
                   (fst st), snd st)))
            tt)) = seq 0 1 /\
  fst (fst (defer
              (fun register st =>
                 (Throw VNull,
                  (register (fun _ => throw (VString "cleanup failed")) None
                     (fst st), snd st)))
              tt)) = Normal VUndefined.
Proof.
  apply (defer_without_rethrow_ends_as_body
           (fun register st =>
              (Throw VNull,
               (register (fun _ => throw (VString "cleanup failed")) None
                  (fst st), snd st)))
           tt).
  intros cb [<-|[]]. reflexivity.
Defined.

(** When the body succeeds and a callback registered with [rethrow: true]
    is invoked and throws a truthy value, [defer] raises that value: the
    body's result is lost. *)
Theorem defer_rethrow_discards_body_value
  {W : Type} (func : Body W) (w : W) (v : value)
  (j : nat) (cb : DeferredCallback W) (e : value) :
  fst (func register ([], w)) = Normal v ->
  nth_error (fst (snd (func register ([], w)))) j = Some cb ->
  rethrow cb = true ->
  In (j, Throw e) (snd (defer func w)) ->
  truthy e = true ->
  fst (fst (defer func w)) = Throw e.
Proof.
  intros Hbody Hnth Hr Hin Ht. rewrite defer_unfold in *. cbv zeta in *.
  set (callbacks := fst (snd (func register ([], w)))) in *.
  set (w1 := snd (snd (func register ([], w)))) in *.
  rewrite Hbody in *.
  assert (Hthrown :
            fst (fst (run_callbacks callbacks 0 VUndefined w1)) = Some e).
  { eapply proj1, run_callbacks_rethrow with (j := j) (cb := cb); auto.
    - destruct (run_callbacks callbacks 0 VUndefined w1)
        as [[[r|] w2] invoked]; exact Hin.
    - rewrite Nat.sub_0_r. exact Hnth. }
  destruct (run_callbacks callbacks 0 VUndefined w1) as [[thrown w2] invoked].
  simpl in Hthrown. subst thrown. reflexivity.
Qed.

Lemma defer_rethrow_discards_body_value_witness :
  fst (fst (defer
              (fun register st =>
                 (Normal (VString "done"),
                  (register (fun _ => throw (VString "cleanup failed"))
                     (Some {| opt_rethrow := Some true |}) (fst st),
                   snd st)))
              tt)) =
  Throw (VString "cleanup failed").
Proof.
  apply (defer_rethrow_discards_body_value
           (fun register st =>
              (Normal (VString "done"),
               (register (fun _ => throw (VString "cleanup failed"))
                  (Some {| opt_rethrow := Some true |}) (fst st),
                snd st)))
           tt (VString "done") 0
           {| fn := fun _ => throw (VString "cleanup failed");
              rethrow := true |}
           (VString "cleanup failed"));
    try reflexivity.
  left. reflexivity.
Defined.

(** ** parallel: the limit *)






(** With a negative [limit], [list(1, limit)] is empty and no queue is
    created: [parallel] returns an empty array without calling the worker
    on any item, whatever the input. *)
Theorem parallel_negative_limit_processes_nothing
  {W T : Type} (func : T -> M W value) (limit : Z) (array : list T)
  (sched : nat -> nat) (w : W) :
  limit < 0 ->
  parallel func limit array sched w = Some (Normal (VArray []), w, []).
Proof.
  intros Hneg. unfold parallel, Arr.list, Arr.range.
  destruct (Z.eqb_spec limit 0); [lia|].
  replace (Z.to_nat (limit - 1 + 1)) with O by lia.
  simpl. destruct (List.length array); reflexivity.
Qed.

Lemma parallel_negative_limit_processes_nothing_witness :
  parallel (fun x : Z => @ret unit value (VNumber x)) (-1) [10; 20]
    (fun t => t) tt =
  Some (Normal (VArray []), tt, []).
Proof.
  apply (parallel_negative_limit_processes_nothing
           (fun x : Z => @ret unit value (VNumber x)) (-1) [10; 20]
           (fun t => t) tt).
  reflexivity.
Defined.



(** ** map *)

Section MapFacts.

Context {W T : Type}.
Variable f : T -> nat -> M W value.

Lemma map_loop_app :
  forall (l1 l2 : list T) (i : nat) (acc : list value) (w : W),
    map_loop f (l1 ++ l2) i acc w =
    match map_loop f l1 i acc w with
    | (Normal (VArray vs), w1) => map_loop f l2 (i + List.length l1) vs w1
    | other => other
    end.
Proof.
  induction l1 as [|x l1 IH]; intros l2 i acc w; simpl.
  - unfold ret. rewrite Nat.add_0_r. reflexivity.
  - unfold bind. destruct (f x i w) as [[v|e] w1]; [|reflexivity].
    rewrite IH. replace (S i + List.length l1)%nat
      with (i + S (List.length l1))%nat by lia.
    reflexivity.
Qed.

Lemma map_loop_acc :
  forall (l : list T) (i : nat) (acc : list value) (w : W),
    map_loop f l i acc w =
    match map_loop f l i [] w with
    | (Normal (VArray vs), w1) => (Normal (VArray (acc ++ vs)), w1)
    | other => other
    end.
Proof.
  induction l as [|x l IH]; intros i acc w; simpl.
  - unfold ret. rewrite app_nil_r. reflexivity.
  - unfold bind. destruct (f x i w) as [[v|e] w1]; [|reflexivity].
    rewrite IH. rewrite (IH (S i) [v]).
    destruct (map_loop f l (S i) [] w1) as [[[] |e] w2];
      try reflexivity.
    rewrite <- app_assoc. reflexivity.
Qed.

Lemma map_loop_length :
  forall (l : list T) (i : nat) (acc : list value) (w w' : W) (r : value),
    map_loop f l i acc w = (Normal r, w') ->
    exists vs,
      r = VArray vs /\
      List.length vs = (List.length acc + List.length l)%nat.
Proof.
  induction l as [|x l IH]; intros i acc w w' r H; simpl in H.
  - injection H as <- _. exists acc. split; [reflexivity | simpl; lia].
  - unfold bind in H. destruct (f x i w) as [[v|e] w1]; [|discriminate].
    apply IH in H. destruct H as (vs & -> & Hlen). exists vs.
    split; [reflexivity|]. rewrite Hlen, length_app. simpl. lia.
Qed.

End MapFacts.

(** [map] stops at the first call that fails: when the calls for the items
    before [x] succeed and the call for [x], made with its position as
    index, throws [e], [map] raises [e] and leaves the world as that call
    left it; the items after [x] are not touched. *)
Theorem map_stops_at_first_failure
  {W T : Type} (f : T -> nat -> M W value) (pre : list T) (x : T)
  (post : list T) (w w1 w2 : W) (vs : list value) (e : value) :
  Async.map pre f w = (Normal (VArray vs), w1) ->
  f x (List.length pre) w1 = (Throw e, w2) ->
  Async.map (pre ++ x :: post) f w = (Throw e, w2).
Proof.
  unfold Async.map. intros Hpre Hx.
  rewrite map_loop_app, Hpre. simpl. unfold bind. rewrite Hx. reflexivity.
Qed.

Lemma map_stops_at_first_failure_witness :
  Async.map ([1; 2] ++ 0 :: [4])
    (fun x i n =>
       if x =? 0 then (Throw (VString "zero"), S n)
       else (Normal (VNumber (x + Z.of_nat i)), S n))
    O =
  (Throw (VString "zero"), 3%nat).
Proof.
  apply (map_stops_at_first_failure
           (fun x i n =>
              if x =? 0 then (Throw (VString "zero"), S n)
              else (Normal (VNumber (x + Z.of_nat i)), S n))
           [1; 2] 0 [4] O 2%nat 3%nat [VNumber 1; VNumber 3]
           (VString "zero"));
    reflexivity.
Defined.

(** When [map] returns, it returns an array with one value per item. *)
Theorem map_returns_one_value_per_item
  {W T : Type} (f : T -> nat -> M W value) (array : list T) (w w' : W)
  (r : value) :
  Async.map array f w = (Normal r, w') ->
  exists vs, r = VArray vs /\ List.length vs = List.length array.
Proof.
  unfold Async.map. intros H. apply map_loop_length in H. exact H.
Qed.

Lemma map_returns_one_value_per_item_witness :
  exists vs,
    VArray [VNumber 10; VNumber 21] = VArray vs /\
    List.length vs = List.length [10; 20].
Proof.
  apply (map_returns_one_value_per_item
           (fun x i => @ret unit value (VNumber (x + Z.of_nat i)))
           [10; 20] tt tt).
  reflexivity.
Defined.

(** [map] over a concatenation: when it succeeds on the first part, and
    then on the second part with the indexes shifted by the length of the
    first, it succeeds on the whole with the two results concatenated. *)
Theorem map_over_concatenation
  {W T : Type} (f : T -> nat -> M W value) (l1 l2 : list T) (w w1 w2 : W)
  (vs1 vs2 : list value) :
  Async.map l1 f w = (Normal (VArray vs1), w1) ->
  Async.map l2 (fun x i => f x (List.length l1 + i)%nat) w1 =
  (Normal (VArray vs2), w2) ->
  Async.map (l1 ++ l2) f w = (Normal (VArray (vs1 ++ vs2)), w2).
Proof.
  unfold Async.map. intros H1 H2.
  rewrite map_loop_app, H1. simpl.
  rewrite map_loop_acc.
  assert (Hshift : forall l i acc w0,
             map_loop (fun x k => f x (List.length l1 + k)%nat) l i acc w0 =
             map_loop f l (List.length l1 + i) acc w0).
  { induction l as [|x l IH]; intros i acc w0; simpl; trivial.
    unfold bind. destruct (f x (List.length l1 + i)%nat w0) as [[v|e] w3];
      [|reflexivity].
    rewrite IH. replace (List.length l1 + S i)%nat
      with (S (List.length l1 + i)) by lia.
    reflexivity. }
  rewrite Hshift, Nat.add_0_r in H2. rewrite H2. reflexivity.
Qed.

Lemma map_over_concatenation_witness :
  Async.map ([10; 20] ++ [30])
    (fun x i => @ret unit value (VNumber (x + Z.of_nat i))) tt =
  (Normal (VArray ([VNumber 10; VNumber 21] ++ [VNumber 32])), tt).
Proof.
  apply (map_over_concatenation
           (fun x i => @ret unit value (VNumber (x + Z.of_nat i)))
           [10; 20] [30] tt tt tt);
    reflexivity.
Defined.

(** ** reduce *)

(** Without an initial value, [reduce] on an empty array raises its error
    and never calls the reducer. *)
Theorem reduce_empty_without_init_raises
  {W : Type} (asyncReducer : value -> value -> nat -> M W value) (w : W) :
  reduce [] asyncReducer VUndefined w =
  (Throw (new_Error "Cannot reduce empty array with no init value"), w).
Proof. reflexivity. Qed.

(** Without an initial value, the first item is the seed and the reducer
    runs over the remaining items with indexes counted from 0 there: as
    long as the first item is not [undefined], this is [reduce] over the
    rest of the array with the first item as initial value. *)
Theorem reduce_first_item_is_seed
  {W : Type} (asyncReducer : value -> value -> nat -> M W value)
  (x : value) (rest : list value) (w : W) :
  is_undefined x = false ->
  reduce (x :: rest) asyncReducer VUndefined w =
  reduce rest asyncReducer x w.
Proof.
  intros Hx. unfold reduce. simpl. rewrite Hx. reflexivity.
Qed.

Lemma reduce_first_item_is_seed_witness :
  reduce [VNumber 1; VNumber 2]
    (fun a x i => @ret unit value (VArray [a; x; VNumber (Z.of_nat i)]))
    VUndefined tt =
  reduce [VNumber 2]
    (fun a x i => @ret unit value (VArray [a; x; VNumber (Z.of_nat i)]))
    (VNumber 1) tt.
Proof.
  apply (reduce_first_item_is_seed
           (fun a x i => @ret unit value (VArray [a; x; VNumber (Z.of_nat i)]))
           (VNumber 1) [VNumber 2] tt).
  reflexivity.
Defined.

Lemma reduce_loop_fold {W : Type}
  (asyncReducer : value -> value -> nat -> M W value)
  (g : value -> value -> nat -> value) :
  (forall a x i w0, fst (asyncReducer a x i w0) = Normal (g a x i)) ->
  forall (l : list value) (i : nat) (v : value) (w : W),
    fst (reduce_loop asyncReducer l i v w) =
    Normal
      (fold_left (fun a ix => g a (snd ix) (fst ix))
         (combine (seq i (List.length l)) l) v).
Proof.
  intros Hg. induction l as [|x l IH]; intros i v w; simpl; trivial.
  unfold bind. pose proof (Hg v x i w) as Hx.
  destruct (asyncReducer v x i w) as [c w1]. simpl in Hx. subst c.
  apply IH.
Qed.

(** With an initial value and a reducer that always succeeds, with a value
    that depends on its arguments only, [reduce] is the left fold of the
    reducer over the items in order, each with its position as index. *)
Theorem reduce_is_left_fold
  {W : Type} (asyncReducer : value -> value -> nat -> M W value)
  (g : value -> value -> nat -> value) (array : list value)
  (initValue : value) (w : W) :
  (forall a x i w0, fst (asyncReducer a x i w0) = Normal (g a x i)) ->
  is_undefined initValue = false ->
  fst (reduce array asyncReducer initValue w) =
  Normal
    (fold_left (fun a ix => g a (snd ix) (fst ix))
       (combine (seq 0 (List.length array)) array) initValue).
Proof.
  intros Hg Hinit. unfold reduce. rewrite Hinit. simpl.
  apply reduce_loop_fold. exact Hg.
Qed.

Lemma reduce_is_left_fold_witness :
  fst (reduce [VNumber 5; VNumber 7]
         (fun a x i => @ret unit value (VArray [a; x; VNumber (Z.of_nat i)]))
         VNull tt) =
  Normal
    (fold_left
       (fun a ix => VArray [a; snd ix; VNumber (Z.of_nat (fst ix))])
       (combine (seq 0 (List.length [VNumber 5; VNumber 7]))
          [VNumber 5; VNumber 7])
       VNull).
Proof.
  apply (reduce_is_left_fold
           (fun a x i => @ret unit value (VArray [a; x; VNumber (Z.of_nat i)]))
           (fun a x i => VArray [a; x; VNumber (Z.of_nat i)])
           [VNumber 5; VNumber 7] VNull tt);
    reflexivity.
Defined.

(** ** guard *)

(** [guard] raises exactly the failures that [shouldGuard] is given for and
    rejects: it never raises without a [shouldGuard], nor an error that
    [shouldGuard] accepts, nor anything [func] did not throw. *)
Theorem guard_raises_only_rejected_errors
  {W : Type} (func : M W value) (shouldGuard : option (value -> bool))
  (w : W) (e : value) :
  fst (guard func shouldGuard w) = Throw e <->
  fst (func w) = Throw e /\ exists p, shouldGuard = Some p /\ p e = false.
Proof.
  unfold guard. destruct (func w) as [[v|err] w1]; simpl.
  - split; [discriminate | intros [H _]; discriminate].
  - destruct shouldGuard as [p|]; simpl.
    + destruct (p err) eqn:Hp; simpl; split.
      * discriminate.
      * intros [H (q & Hq & Hqe)]. injection H as <-. injection Hq as <-.
        congruence.
      * intros H. injection H as <-. eauto.
      * intros [H _]. exact H.
    + split; [discriminate|]. intros [_ (p & Hp & _)]. discriminate.
Qed.

(** Without a [shouldGuard], [guard(func)] returns the value half of
    [tryit(func)]: the value of [func], or [undefined] when it fails. *)
Theorem guard_is_value_of_tryit
  {W : Type} (func : M W value) (w : W) :
  guard func None w =
  (Normal (snd (fst (tryit (fun _ : unit => func) tt w))),
   snd (tryit (fun _ : unit => func) tt w)).
Proof.
  unfold guard, tryit. destruct (func w) as [[v|err] w1]; reflexivity.
Qed.

(** ** fork and sort *)

(** [fork] splits a list in two without reordering: the items that satisfy
    the condition, in their order, and the others, in theirs; no item is
    lost or duplicated. *)
Theorem fork_splits_in_order {A} (l : list A) (condition : A -> bool) :
  fst (Arr.fork l condition) = filter condition l /\
  snd (Arr.fork l condition) = filter (fun x => negb (condition x)) l /\
  Permutation (fst (Arr.fork l condition) ++ snd (Arr.fork l condition)) l.
Proof.
  rewrite fork_filter. simpl. repeat split.
  induction l as [|x l IH]; simpl; trivial.
  destruct (condition x); simpl.
  - constructor. exact IH.
  - rewrite <- Permutation_middle. constructor. exact IH.
Qed.

Section SortWith.

Context {A : Type}.
Variable cmp : A -> A -> Z.
Variable k : A -> Z.

(** The comparator orders by the key [k]. *)
Hypothesis cmp_key : forall a b, (cmp a b <=? 0) = (k a <=? k b).

Lemma insert_with_perm (x : A) (l : list A) :
  Permutation (Arr.insert cmp x l) (x :: l).
Proof.
  induction l as [|y l IH]; simpl; trivial.
  destruct (cmp x y <=? 0); trivial.
  rewrite IH. apply perm_swap.
Qed.


Lemma insert_with_sorted (x : A) (l : list A) :
  StronglySorted (le_key k) l ->
  StronglySorted (le_key k) (Arr.insert cmp x l).
Proof.
  induction 1 as [|y l Hs IH Hall]; simpl.
  - repeat constructor.
  - rewrite cmp_key. destruct (Z.leb_spec (k x) (k y)) as [Hle|Hgt].
    + constructor; [constructor; trivial|].
      constructor; [exact Hle|].
      eapply Forall_impl; [|exact Hall].
      unfold le_key. intros; lia.
    + constructor; trivial.
      eapply Permutation_Forall; [symmetry; apply insert_with_perm|].
      constructor; [unfold le_key; lia | exact Hall].
Qed.

Lemma sort_with_sorted (l : list A) :
  StronglySorted (le_key k) (Arr.sort_with cmp l).
Proof.
  unfold Arr.sort_with.
  induction l as [|x l IH]; simpl; [constructor|].
  apply insert_with_sorted. exact IH.
Qed.



Lemma sort_with_sorted_id (l : list A) :
  StronglySorted (le_key k) l -> Arr.sort_with cmp l = l.
Proof.
  unfold Arr.sort_with.
  induction 1 as [|x l Hs IH Hall]; simpl; trivial.
  rewrite IH. destruct l as [|y l]; trivial. simpl.
  inversion Hall as [|? ? Hxy _]; subst. unfold le_key in Hxy.
  rewrite cmp_key. destruct (Z.leb_spec (k x) (k y)); [reflexivity | lia].
Qed.

End SortWith.

Lemma asc_key {A} (key : A -> Z) (a b : A) :
  (Arr.asc key a b <=? 0) = (key a <=? key b).
Proof.
  unfold Arr.asc.
  destruct (Z.leb_spec (key a - key b) 0), (Z.leb_spec (key a) (key b));
    trivial; lia.
Qed.

Lemma dsc_key {A} (key : A -> Z) (a b : A) :
  (Arr.dsc key a b <=? 0) = (- key a <=? - key b).
Proof.
  unfold Arr.dsc.
  destruct (Z.leb_spec (key b - key a) 0), (Z.leb_spec (- key a) (- key b));
    trivial; lia.
Qed.




(** Sorting twice in the same direction changes nothing more. *)
Theorem sort_twice_is_sort_once {A} (key : A -> Z) (array : list A)
  (desc : bool) :
  Arr.sort key (Arr.sort key array desc) desc = Arr.sort key array desc.
Proof.
  unfold Arr.sort. destruct desc.
  - apply (sort_with_sorted_id (Arr.dsc key) (fun a => - key a) (dsc_key key)).
    apply (sort_with_sorted (Arr.dsc key) (fun a => - key a) (dsc_key key)).
  - apply (sort_with_sorted_id (Arr.asc key) key (asc_key key)).
    apply (sort_with_sorted (Arr.asc key) key (asc_key key)).
Qed.

(** ** range and list *)

Lemma range_loop_exact :
  forall (fuel : nat) (a : Z),
    Arr.range_loop fuel a (a + Z.of_nat fuel - 1) =
    List.map (fun j => a + Z.of_nat j) (seq 0 fuel).
Proof.
  induction fuel as [|fuel IH]; intros a; trivial.
  cbn [Arr.range_loop seq List.map].
  destruct (Z.leb_spec a (a + Z.of_nat (S fuel) - 1)); [|lia].
  rewrite Z.add_0_r. f_equal. rewrite Z.gtb_ltb.
  destruct (Z.ltb_spec (a + Z.of_nat (S fuel) - 1) (a + 1)).
  - destruct fuel; [reflexivity | lia].
  - replace (a + Z.of_nat (S fuel) - 1) with (a + 1 + Z.of_nat fuel - 1) by lia.
    rewrite IH, <- seq_shift, map_map. apply map_ext. intros j. lia.
Qed.



(** An end of 0 counts as no end when the start is chosen, but not when
    the last value is: [range(start, 0)] yields the single value 0 for
    every [start]. *)
Theorem range_to_zero_ignores_start (s : Z) : Arr.range s (Some 0) = [0].
Proof. reflexivity. Qed.

(** With no end, [range(n)] counts from 0 to [n], both included: [n + 1]
    values for [n >= 0], none for a negative [n]. *)
Theorem range_without_end_counts_from_zero (n : Z) :
  Arr.range n None = List.map Z.of_nat (seq 0 (Z.to_nat (n + 1))).
Proof.
  unfold Arr.range. destruct (Z.le_gt_cases 0 n) as [Hle|Hgt].
  - replace n with (0 + Z.of_nat (Z.to_nat (n - 0 + 1)) - 1) at 2 by lia.
    rewrite range_loop_exact. replace (n - 0 + 1) with (n + 1) by lia.
    apply map_ext. intros j. lia.
  - replace (Z.to_nat (n - 0 + 1)) with O by lia.
    replace (Z.to_nat (n + 1)) with O by lia. reflexivity.
Qed.

(** ** flat, cluster and shift *)

Lemma flat_concat {A} (lists : list (list A)) :
  Arr.flat lists = List.concat lists.
Proof.
  unfold Arr.flat.
  assert (H : forall ls acc,
             fold_left (fun (a : list A) l => a ++ l) ls acc =
             acc ++ List.concat ls).
  { induction ls as [|l ls IH]; intros acc; simpl.
    - symmetry. apply app_nil_r.
    - rewrite IH, app_assoc. reflexivity. }
  apply (H lists []).
Qed.

Lemma firstn_plus {A} (a b : nat) (l : list A) :
  firstn (a + b) l = firstn a l ++ firstn b (skipn a l).
Proof.
  revert l. induction a as [|a IH]; intros l; simpl; trivial.
  destruct l as [|x l]; simpl.
  - rewrite firstn_nil. reflexivity.
  - rewrite IH. reflexivity.
Qed.

(** A slice between bounds that lie inside the array. *)
Lemma slice_inside {A} (l : list A) (a b : Z) :
  0 <= a <= b -> b <= Z.of_nat (List.length l) ->
  Arr.slice l a b = firstn (Z.to_nat (b - a)) (skipn (Z.to_nat a) l).
Proof.
  intros Hab Hb. unfold Arr.slice.
  destruct (Z.ltb_spec a 0); [lia|]. destruct (Z.ltb_spec b 0); [lia|].
  rewrite !Z.min_l by lia. reflexivity.
Qed.

(** A slice of [size] items from inside the array, cut short by its end. *)
Lemma slice_chunk {A} (l : list A) (a size : Z) :
  0 <= a < Z.of_nat (List.length l) -> 0 < size ->
  Arr.slice l a (a + size) =
  firstn (Z.to_nat size) (skipn (Z.to_nat a) l).
Proof.
  intros Ha Hsize. unfold Arr.slice.
  destruct (Z.ltb_spec a 0); [lia|]. destruct (Z.ltb_spec (a + size) 0); [lia|].
  rewrite (Z.min_l a) by lia.
  destruct (Z.le_gt_cases (a + size) (Z.of_nat (List.length l))) as [Hin|Hout].
  - rewrite Z.min_l by lia. f_equal. lia.
  - rewrite Z.min_r by lia.
    rewrite !firstn_all2; trivial; rewrite length_skipn; lia.
Qed.

Lemma chunks_concat {A} (l : list A) (s : nat) :
  forall cnt : nat,
    List.concat
      (List.map (fun i => firstn s (skipn (i * s) l)) (seq 0 cnt)) =
    firstn (cnt * s) l.
Proof.
  induction cnt as [|cnt IH]; trivial.
  rewrite seq_S, map_app, concat_app, IH. simpl.
  rewrite app_nil_r, <- firstn_plus. f_equal. lia.
Qed.

(** With a size of at least 1, [cluster] succeeds and loses nothing:
    flattening the clusters gives the list back, and every cluster holds
    between 1 and [size] items. *)
Theorem cluster_then_flat_is_identity {A} (l : list A) (size : Z) :
  1 <= size ->
  exists clusters,
    Arr.cluster l size = Some clusters /\
    Arr.flat clusters = l /\
    Forall
      (fun c => (1 <= List.length c)%nat /\ Z.of_nat (List.length c) <= size)
      clusters.
Proof.
  intros Hsize. unfold Arr.cluster.
  destruct (Z.ltb_spec 0 size); [|lia].
  set (len := Z.of_nat (List.length l)).
  set (cnt := Z.to_nat ((len + size - 1) / size)).
  assert (Hcnt : Z.of_nat cnt * size < len + size /\
                 len <= Z.of_nat cnt * size).
  { subst cnt. rewrite Z2Nat.id by (apply Z.div_pos; lia).
    pose proof (Z.div_mod (len + size - 1) size) as Hdm.
    pose proof (Z.mod_pos_bound (len + size - 1) size) as Hmb. nia. }
  assert (Hmap :
    List.map
      (fun i => Arr.slice l (Z.of_nat i * size) (Z.of_nat i * size + size))
      (seq 0 cnt) =
    List.map (fun i => firstn (Z.to_nat size) (skipn (i * Z.to_nat size) l))
      (seq 0 cnt)).
  { apply map_ext_in. intros i Hi. apply in_seq in Hi.
    rewrite slice_chunk; [f_equal; f_equal; nia | subst len; nia | lia]. }
  eexists. split; [reflexivity|]. split.
  - rewrite flat_concat, Hmap, chunks_concat.
    apply firstn_all2. subst len. nia.
  - rewrite Hmap. apply Forall_forall. intros c Hc.
    apply in_map_iff in Hc. destruct Hc as (i & <- & Hi).
    apply in_seq in Hi. rewrite length_firstn, length_skipn.
    subst len. split; nia.
Qed.

Lemma cluster_then_flat_is_identity_witness :
  exists clusters,
    Arr.cluster [1; 2; 3; 4; 5] 2 = Some clusters /\
    Arr.flat clusters = [1; 2; 3; 4; 5] /\
    Forall
      (fun c => (1 <= List.length c)%nat /\ Z.of_nat (List.length c) <= 2)
      clusters.
Proof.
  apply (cluster_then_flat_is_identity [1; 2; 3; 4; 5] 2). lia.
Defined.

Lemma neg_mod_of_rem (n len : Z) :
  0 < len ->
  (- n) mod len =
  if Z.rem n len =? 0 then 0
  else if Z.rem n len <? 0 then - Z.rem n len
  else len - Z.rem n len.
Proof.
  intros Hlen.
  pose proof (Z.rem_bound_abs n len) as Habs.
  pose proof (Z.quot_rem' n len) as Hq.
  assert (Hrel : (- n) mod len = (- Z.rem n len) mod len).
  { replace (- n) with (- Z.rem n len + (- Z.quot n len) * len) by lia.
    apply Z.mod_add. lia. }
  rewrite Hrel.
  destruct (Z.eqb_spec (Z.rem n len) 0) as [Hr|Hr].
  - rewrite Hr. reflexivity.
  - destruct (Z.ltb_spec (Z.rem n len) 0).
    + apply Z.mod_small. lia.
    + replace (- Z.rem n len) with (len - Z.rem n len + (-1) * len) by lia.
      rewrite Z.mod_add by lia. apply Z.mod_small. lia.
Qed.

(** [shift] in terms of where the array is cut: the items from position
    [m] on come first, where [m] is [-n] modulo the length. *)
Lemma shift_cut {A} (arr : list A) (n : Z) :
  Arr.shift arr n =
  skipn (Z.to_nat ((- n) mod Z.of_nat (List.length arr))) arr ++
  firstn (Z.to_nat ((- n) mod Z.of_nat (List.length arr))) arr.
Proof.
  destruct arr as [|x0 arr0] eqn:Harr.
  { unfold Arr.shift. simpl. rewrite skipn_nil, firstn_nil. reflexivity. }
  rewrite <- Harr. 
  assert (Hlen : 0 < Z.of_nat (List.length arr)) by (subst arr; simpl; lia).
  clear Harr x0 arr0.
  unfold Arr.shift.
  rewrite (neg_mod_of_rem n _ Hlen).
  pose proof (Z.rem_bound_abs n (Z.of_nat (List.length arr))) as Habs.
  set (len := Z.of_nat (List.length arr)) in *.
  destruct (Z.eqb_spec len 0); [lia|].
  destruct (Z.eqb_spec (Z.rem n len) 0) as [Hr|Hr].
  - simpl. symmetry. apply app_nil_r.
  - destruct (Z.ltb_spec (Z.rem n len) 0) as [Hneg|Hpos].
    + rewrite (slice_inside arr (- Z.rem n len) len) by (subst len; lia).
      rewrite (slice_inside arr 0 (- Z.rem n len)) by (subst len; lia).
      change (Z.to_nat 0) with O. cbn [skipn]. rewrite Z.sub_0_r.
      rewrite firstn_all2; trivial. rewrite length_skipn. subst len. lia.
    + unfold Arr.slice. fold len.
      destruct (Z.ltb_spec (- Z.rem n len) 0); [|lia].
      destruct (Z.ltb_spec len 0); [lia|].
      destruct (Z.ltb_spec 0 0); [lia|].
      rewrite (Z.max_l (len + - Z.rem n len)) by lia.
      rewrite Z.min_id, (Z.min_l 0) by lia.
      replace (len + - Z.rem n len) with (len - Z.rem n len) by lia.
      change (Z.to_nat 0) with O. cbn [skipn]. rewrite Z.sub_0_r.
      rewrite firstn_all2; trivial. rewrite length_skipn. subst len. lia.
Qed.

Lemma shift_length {A} (arr : list A) (n : Z) :
  List.length (Arr.shift arr n) = List.length arr.
Proof.
  rewrite shift_cut, length_app, length_skipn, length_firstn. lia.
Qed.

(** [shift(arr, n)] moves the last [n mod length] items to the front,
    keeping the order within both parts; this covers negative [n] and [n]
    beyond the length. *)
Theorem shift_moves_last_items_to_front {A} (arr : list A) (n : Z) :
  let len := List.length arr in
  let r := Z.to_nat (n mod Z.of_nat len) in
  Arr.shift arr n = skipn (len - r) arr ++ firstn (len - r) arr.
Proof.
  cbv zeta. rewrite shift_cut.
  destruct arr as [|x0 arr0] eqn:Harr.
  { rewrite !skipn_nil, !firstn_nil. reflexivity. }
  rewrite <- Harr.
  assert (Hlen : 0 < Z.of_nat (List.length arr)) by (subst arr; simpl; lia).
  clear Harr x0 arr0.
  pose proof (Z.mod_pos_bound n _ Hlen) as Hb.
  destruct (Z.eq_dec (n mod Z.of_nat (List.length arr)) 0) as [Hz|Hnz].
  - rewrite Z.mod_opp_l_z by lia || exact Hz. rewrite Hz. simpl.
    rewrite Nat.sub_0_r, skipn_all, firstn_all, app_nil_r. reflexivity.
  - rewrite Z.mod_opp_l_nz by lia || exact Hnz.
    replace (Z.to_nat (Z.of_nat (List.length arr) -
                       n mod Z.of_nat (List.length arr)))
      with (List.length arr - Z.to_nat (n mod Z.of_nat (List.length arr)))%nat
      by lia.
    reflexivity.
Qed.

(** Shifting by [n] and then by [-n] gives the array back. *)
Theorem shift_back_and_forth {A} (arr : list A) (n : Z) :
  Arr.shift (Arr.shift arr n) (- n) = arr.
Proof.
  destruct arr as [|x0 arr0] eqn:Harr; [reflexivity|].
  rewrite <- Harr.
  rewrite (shift_cut (Arr.shift arr n)), shift_length, Z.opp_involutive.
  rewrite (shift_cut arr n).
  assert (Hlen : 0 < Z.of_nat (List.length arr)) by (subst arr; simpl; lia).
  clear Harr x0 arr0.
  pose proof (Z.mod_pos_bound n _ Hlen) as Hb.
  pose proof (Z.mod_pos_bound (- n) _ Hlen) as Hb'.
  set (m1 := Z.to_nat ((- n) mod Z.of_nat (List.length arr))).
  assert (Hm2 : Z.to_nat (n mod Z.of_nat (List.length arr)) =
                if (m1 =? 0)%nat then O else (List.length arr - m1)%nat).
  { subst m1.
    destruct (Z.eq_dec (n mod Z.of_nat (List.length arr)) 0) as [Hz|Hnz].
    - rewrite Z.mod_opp_l_z by lia || exact Hz. rewrite Hz. reflexivity.
    - rewrite Z.mod_opp_l_nz by lia || exact Hnz.
      destruct (Nat.eqb_spec
                  (Z.to_nat (Z.of_nat (List.length arr) -
                             n mod Z.of_nat (List.length arr))) 0); lia. }
  rewrite Hm2. destruct (Nat.eqb_spec m1 0) as [Hz|Hnz].
  - rewrite Hz. simpl. rewrite !app_nil_r. reflexivity.
  - assert (Hm1 : (m1 <= List.length arr)%nat) by (subst m1; lia).
    replace (List.length arr - m1)%nat with (List.length (skipn m1 arr))
      by (rewrite length_skipn; reflexivity).
    rewrite skipn_app, firstn_app, Nat.sub_diag, skipn_all, firstn_all.
    simpl. rewrite app_nil_r. apply firstn_skipn.
Qed.

(** ** boil, max and min *)

Lemma boil_keeps_last_greatest {A} (key : A -> Z) :
  forall (rest pre : list A) (x : A) (mid : list A),
    Forall (fun y => key y <= key x) pre ->
    Forall (fun y => key y < key x) mid ->
    exists pre' post,
      pre ++ x :: mid ++ rest =
      pre' ++
      fold_left (fun a b => if key a >? key b then a else b) rest x :: post /\
      Forall
        (fun y =>
           key y <=
           key (fold_left (fun a b => if key a >? key b then a else b) rest x))
        pre' /\
      Forall
        (fun y =>
           key y <
           key (fold_left (fun a b => if key a >? key b then a else b) rest x))
        post.
Proof.
  induction rest as [|b rest IH]; intros pre x mid Hpre Hmid.
  - exists pre, mid. rewrite app_nil_r. auto.
  - simpl fold_left. rewrite Z.gtb_ltb.
    destruct (Z.ltb_spec (key b) (key x)) as [Hlt|Hge].
    + destruct (IH pre x (mid ++ [b])) as (pre' & post & Heq & H1 & H2);
        trivial.
      { apply Forall_app. split; [exact Hmid|]. constructor; trivial. }
      exists pre', post. rewrite <- Heq, <- app_assoc. auto.
    + destruct (IH (pre ++ x :: mid) b []) as (pre' & post & Heq & H1 & H2).
      { apply Forall_app. split.
        - eapply Forall_impl; [|exact Hpre]. simpl. intros; lia.
        - constructor; [lia|].
          eapply Forall_impl; [|exact Hmid]. simpl. intros; lia. }
      { constructor. }
      exists pre', post. rewrite <- Heq, <- app_assoc. auto.
Qed.

(** [max] answers [null] exactly for an empty array; otherwise it answers
    an item whose key no other item exceeds, and among several such items
    the last one. *)
Theorem max_is_last_greatest {A} (array : list A) (getter : A -> Z) :
  match Arr.max array getter with
  | None => array = []
  | Some m =>
      exists pre post,
        array = pre ++ m :: post /\
        Forall (fun y => getter y <= getter m) pre /\
        Forall (fun y => getter y < getter m) post
  end.
Proof.
  unfold Arr.max, Arr.boil. destruct array as [|x rest]; trivial.
  destruct (boil_keeps_last_greatest getter rest [] x [])
    as (pre & post & Heq & H1 & H2); try constructor.
  exists pre, post. auto.
Qed.

(** [min] answers [null] exactly for an empty array; otherwise it answers
    an item whose key is exceeded by or equal to every other key, and
    among several such items the last one. *)
Theorem min_is_last_least {A} (array : list A) (getter : A -> Z) :
  match Arr.min array getter with
  | None => array = []
  | Some m =>
      exists pre post,
        array = pre ++ m :: post /\
        Forall (fun y => getter m <= getter y) pre /\
        Forall (fun y => getter m < getter y) post
  end.
Proof.
  unfold Arr.min, Arr.boil. destruct array as [|x rest]; trivial.
  assert (Hfold : forall l a,
             fold_left (fun a b => if getter a <? getter b then a else b) l a =
             fold_left
               (fun a b => if - getter a >? - getter b then a else b) l a).
  { induction l as [|b l IH]; intros a; simpl; trivial.
    rewrite IH. f_equal. rewrite Z.gtb_ltb.
    destruct (Z.ltb_spec (getter a) (getter b)),
      (Z.ltb_spec (- getter b) (- getter a)); trivial; lia. }
  rewrite Hfold.
  destruct (boil_keeps_last_greatest (fun y => - getter y) rest [] x [])
    as (pre & post & Heq & H1 & H2); try constructor.
  exists pre, post. repeat split; trivial.
  - eapply Forall_impl; [|exact H1]. simpl. intros; lia.
  - eapply Forall_impl; [|exact H2]. simpl. intros; lia.
Qed.
